(** * OpenFoodFacts Explorer: the filter / aggregate / reshape pipeline

    Shallow embedding of the data pipeline of the two dashboard variants:
    - [app2.py], the data-driven variant: every callback filters the global
      frame [df] with a boolean mask, groups it with [DataFrame.groupby],
      aggregates with [mean] / [size] and reshapes with [pd.melt];
    - [app.py], the mockup variant, whose callbacks return hardcoded data.

    A pandas frame is a list of rows in index order.  A missing value (NaN)
    is [None].  Float columns are modelled with exact rationals [Q], so
    rounding is left out; the NOVA column, which holds the integer-valued
    floats 1.0 .. 4.0, with [Z], and its comparison with a bound is that
    of integers, which is what the code computes for a bound that a double
    holds exactly ([exact_double]).  Python [str] is [string], compared by
    code point as Python does.  The pandas calls follow the documented
    behaviour of the library with the defaults the code leaves in place. *)

From Stdlib Require Import QArith Ascii.
From stdpp Require Import base decidable option list sorting strings gmap pretty.

Local Open Scope Z_scope.

(** ** Python exceptions and the result of a call *)

Inductive exn : Set :=
  | IndexError.   (* [nova_range[i]] with [i] past the end of the list *)

Inductive result (A : Type) : Type :=
  | Ok (a : A)
  | Raise (e : exn).
Arguments Ok {A} a.
Arguments Raise {A} e.

Definition bind {A B} (m : result A) (k : A → result B) : result B :=
  match m with
  | Ok a => k a
  | Raise e => Raise e
  end.

Notation "x ←! m ; k" := (bind m (λ x, k))
  (at level 100, m at next level, k at level 200, right associativity).

(** [seq[i]] on a Python list, for a non-negative literal index. *)
Definition getitem {A} (l : list A) (i : nat) : result A :=
  match l !! i with
  | Some a => Ok a
  | None => Raise IndexError
  end.

(** ** Ordering of group keys

    [groupby] sorts its keys with Python's [<]: code-point order on [str],
    numeric order on numbers, lexicographic order on tuples. *)

Class KeyOrd (K : Type) := {
  kleb : K → K → bool;
  kleb_total : ∀ a b, kleb a b = true ∨ kleb b a = true;
  kleb_trans : ∀ a b c, kleb a b = true → kleb b c = true → kleb a c = true;
  kleb_antisym : ∀ a b, kleb a b = true → kleb b a = true → a = b;
}.

Definition kle {K} `{KeyOrd K} : relation K := λ a b, kleb a b = true.

(** The strict order of [kle]. *)
Definition klt {K} `{KeyOrd K} : relation K := λ a b, kle a b ∧ a ≠ b.

Global Instance kle_dec {K} `{KeyOrd K} (a b : K) : Decision (kle a b).
Proof. unfold kle. apply _. Defined.

Global Instance kle_total {K} `{KeyOrd K} : Total (kle (K:=K)).
Proof. intros a b. apply kleb_total. Qed.

Global Instance kle_trans {K} `{KeyOrd K} : Transitive (kle (K:=K)).
Proof. intros a b c. apply kleb_trans. Qed.

Global Instance kle_antisym {K} `{KeyOrd K} : AntiSymm (=) (kle (K:=K)).
Proof. intros a b. apply kleb_antisym. Qed.

Lemma kle_refl {K} `{KeyOrd K} (a : K) : kle a a.
Proof. destruct (kleb_total a a); assumption. Qed.

(** Code-point order on strings. *)

Lemma ascii_compare_refl (c : Ascii.ascii) : Ascii.compare c c = Eq.
Proof. unfold Ascii.compare. apply N.compare_refl. Qed.

Lemma ascii_compare_lt_trans (a b c : Ascii.ascii) :
  Ascii.compare a b = Lt → Ascii.compare b c = Lt → Ascii.compare a c = Lt.
Proof.
  unfold Ascii.compare. rewrite !N.compare_lt_iff. apply N.lt_trans.
Qed.

Lemma string_compare_lt_trans (s1 s2 s3 : string) :
  String.compare s1 s2 = Lt → String.compare s2 s3 = Lt →
  String.compare s1 s3 = Lt.
Proof.
  revert s2 s3.
  induction s1 as [|a s1 IH]; intros [|b s2] [|c s3]; simpl; try congruence.
  destruct (Ascii.compare a b) eqn:Hab; try congruence;
    destruct (Ascii.compare b c) eqn:Hbc; try congruence; intros H12 H23.
  - apply Ascii.compare_eq_iff in Hab, Hbc. subst.
    rewrite ascii_compare_refl. eauto.
  - apply Ascii.compare_eq_iff in Hab. subst. now rewrite Hbc.
  - apply Ascii.compare_eq_iff in Hbc. subst. now rewrite Hab.
  - now rewrite (ascii_compare_lt_trans a b c).
Qed.

Lemma string_leb_trans (s1 s2 s3 : string) :
  String.leb s1 s2 = true → String.leb s2 s3 = true → String.leb s1 s3 = true.
Proof.
  unfold String.leb.
  destruct (String.compare s1 s2) eqn:H12; try congruence;
    destruct (String.compare s2 s3) eqn:H23; try congruence; intros _ _.
  - apply String.compare_eq_iff in H12. subst s2. now rewrite H23.
  - apply String.compare_eq_iff in H12. subst s2. now rewrite H23.
  - apply String.compare_eq_iff in H23. subst s3. now rewrite H12.
  - now rewrite (string_compare_lt_trans s1 s2 s3).
Qed.

Global Instance string_KeyOrd : KeyOrd string :=
  {| kleb := String.leb;
     kleb_total := String.leb_total;
     kleb_trans := string_leb_trans;
     kleb_antisym := String.leb_antisym |}.

Lemma Z_leb_total (a b : Z) : (a <=? b) = true ∨ (b <=? a) = true.
Proof. rewrite !Z.leb_le. lia. Qed.

Lemma Z_leb_trans (a b c : Z) :
  (a <=? b) = true → (b <=? c) = true → (a <=? c) = true.
Proof. rewrite !Z.leb_le. lia. Qed.

Lemma Z_leb_antisym (a b : Z) : (a <=? b) = true → (b <=? a) = true → a = b.
Proof. rewrite !Z.leb_le. lia. Qed.

Global Instance Z_KeyOrd : KeyOrd Z :=
  {| kleb := Z.leb;
     kleb_total := Z_leb_total;
     kleb_trans := Z_leb_trans;
     kleb_antisym := Z_leb_antisym |}.

(** Tuples compare on the first component, then on the second. *)
Section PairOrder.
Context {A B : Type} `{EqDecision A} `{KeyOrd A} `{KeyOrd B}.

Definition pair_leb (p q : A * B) : bool :=
  if decide (p.1 = q.1) then kleb p.2 q.2 else kleb p.1 q.1.

Lemma pair_leb_total p q : pair_leb p q = true ∨ pair_leb q p = true.
Proof.
  destruct p as [a1 b1], q as [a2 b2]. unfold pair_leb; simpl.
  repeat case_decide; subst; try congruence; apply kleb_total.
Qed.

Lemma pair_leb_trans p q r :
  pair_leb p q = true → pair_leb q r = true → pair_leb p r = true.
Proof.
  destruct p as [a1 b1], q as [a2 b2], r as [a3 b3]. unfold pair_leb; simpl.
  repeat case_decide; subst; try congruence; intros H12 H23;
    try (eapply kleb_trans; eassumption);
    exfalso; eauto using kleb_antisym.
Qed.

Lemma pair_leb_antisym p q :
  pair_leb p q = true → pair_leb q p = true → p = q.
Proof.
  destruct p as [a1 b1], q as [a2 b2]. unfold pair_leb; simpl.
  repeat case_decide; subst; try congruence; intros H12 H21.
  - f_equal. eauto using kleb_antisym.
  - exfalso. eauto using kleb_antisym.
Qed.

Global Instance pair_KeyOrd : KeyOrd (A * B) :=
  {| kleb := pair_leb;
     kleb_total := pair_leb_total;
     kleb_trans := pair_leb_trans;
     kleb_antisym := pair_leb_antisym |}.
End PairOrder.

(** ** The dataset

    One row of [openfoodfacts_data.csv], with the columns the callbacks of
    [app2.py] read.  [country_code] is never missing: the module-level
    [df['country_code'].apply(clean_country_name)] calls [code.upper()] on
    every value, which only a [str] supports. *)

Record Row : Type := {
  country_code : string;
  nutrition_grade : option string;
  nova_group : option Z;
  fat_100g : option Q;            (* 'nutriments.fat_100g' *)
  sugars_100g : option Q;         (* 'nutriments.sugars_100g' *)
  proteins_100g : option Q;       (* 'nutriments.proteins_100g' *)
  carbohydrates_100g : option Q;  (* 'nutriments.carbohydrates_100g' *)
  salt_100g : option Q;           (* 'nutriments.salt_100g' *)
}.

Abbreviation DataFrame := (list Row).

(** ** Derived columns ([app2.py], lines 27-43) *)

(** [str.upper()] on ASCII text: letters a-z move to A-Z, every other byte
    is kept.  Country codes are ASCII. *)
Definition upper_ascii (c : Ascii.ascii) : Ascii.ascii :=
  let n := Ascii.N_of_ascii c in
  if ((97 <=? n) && (n <=? 122))%N then Ascii.ascii_of_N (n - 32) else c.

Fixpoint upper (s : string) : string :=
  match s with
  | EmptyString => EmptyString
  | String c s' => String (upper_ascii c) (upper s')
  end.

(** [dict.get(key, default)]; Python evaluates [default] before the call. *)
Definition dict_get {V} (d : gmap string V) (key : string) (default : V) : V :=
  match d !! key with
  | Some v => v
  | None => default
  end.

Definition country_map : gmap string string :=
  list_to_map [
    ("us", "United States"); ("fr", "France"); ("uk", "United Kingdom");
    ("de", "Germany"); ("es", "Spain"); ("it", "Italy"); ("cn", "China");
    ("jp", "Japan"); ("in", "India"); ("br", "Brazil"); ("au", "Australia")
  ]%string.

Definition clean_country_name (code : string) : string :=
  dict_get country_map code (upper code).

(** [df['country_name'] = df['country_code'].apply(clean_country_name)] *)
Definition country_name (r : Row) : string :=
  clean_country_name (country_code r).

(** ** pandas primitives *)

(** [Series.isin(values)] for a list of strings: NaN is in no such list. *)
Definition isin (x : option string) (values : list string) : bool :=
  match x with
  | Some s => bool_decide (s ∈ values)
  | None => false
  end.

(** [Series >= b] and [Series <= b]: every comparison with NaN is False. *)
Definition series_ge (x : option Z) (b : Z) : bool :=
  match x with
  | Some v => b <=? v
  | None => false
  end.

Definition series_le (x : option Z) (b : Z) : bool :=
  match x with
  | Some v => v <=? b
  | None => false
  end.

(** [frame[mask]]: a new frame with the rows whose mask is True, in order. *)
Definition boolean_index {R} (mask : R → bool) (frame : list R) : list R :=
  filter (λ r, mask r = true) frame.

(** [frame.groupby(keys)] with the defaults [sort=True, dropna=True]: rows
    whose key is missing belong to no group, and the groups come in
    ascending order of their keys. *)
Section GroupBy.
Context {R K : Type} `{EqDecision K} `{KeyOrd K}.

Definition group_keys (key : R → option K) (frame : list R) : list K :=
  merge_sort kle (remove_dups (omap key frame)).

Definition get_group (key : R → option K) (frame : list R) (k : K) : list R :=
  filter (λ r, key r = Some k) frame.

Definition groupby (key : R → option K) (frame : list R) : list (K * list R) :=
  (λ k, (k, get_group key frame k)) <$> group_keys key frame.

(** [.size()]: the number of rows of each group. *)
Definition size (groups : list (K * list R)) : list (K * nat) :=
  (λ g, (g.1, length g.2)) <$> groups.

End GroupBy.

(** [mean] of a float column with [skipna=True]: the missing values are
    left out, and a column with no value at all has mean NaN. *)
Definition Qsum (xs : list Q) : Q := foldr Qplus 0%Q xs.

Definition Qnat (n : nat) : Q := inject_Z (Z.of_nat n).

Definition mean (xs : list (option Q)) : option Q :=
  match omap id xs with
  | [] => None
  | present => Some (Qsum present / Qnat (length present))%Q
  end.

(** [pd.melt(frame, id_vars, value_vars)]: the value columns are stacked one
    after the other, each one whole, in the order of [value_vars]; the id
    column is repeated along.  [get v] reads column [v] of a row.  The
    labels of [value_vars] are labels of the frame and are not repeated, as
    in both calls of the code. *)
Definition melt {R I Var V} (id : R → I) (get : Var → R → V)
    (frame : list R) (value_vars : list Var) : list (I * Var * V) :=
  v ← value_vars; (λ r, (id r, v, get v r)) <$> frame.

(** ** [update_macronutrient_chart] ([app2.py], lines 218-262) *)

Inductive Nutrient : Set := Fat | Sugars | Proteins | Carbs | Salt.

Global Instance Nutrient_eq_dec : EqDecision Nutrient.
Proof. solve_decision. Defined.

(** The aggregated column behind each display name: the [agg] dictionary
    read with the positional renaming of [macro_avg.columns]. *)
Definition source_column (n : Nutrient) : Row → option Q :=
  match n with
  | Fat => fat_100g
  | Sugars => sugars_100g
  | Proteins => proteins_100g
  | Carbs => carbohydrates_100g
  | Salt => salt_100g
  end.

Record MacroAvgRow : Type := {
  Country : string;
  amount : Nutrient → option Q;
}.

Module MacronutrientChart.

Definition mask (selected_countries selected_grades : list string)
    (lo hi : Z) (r : Row) : bool :=
  isin (Some (country_code r)) selected_countries
  && isin (nutrition_grade r) selected_grades
  && series_ge (nova_group r) lo
  && series_le (nova_group r) hi.

Definition filtered_df (df : DataFrame)
    (selected_countries selected_grades : list string) (nova_range : list Z)
    : result DataFrame :=
  lo ←! getitem nova_range 0;
  hi ←! getitem nova_range 1;
  Ok (boolean_index (mask selected_countries selected_grades lo hi) df).

Definition macro_avg (filtered : DataFrame) : list MacroAvgRow :=
  (λ g, {| Country := g.1;
           amount := λ n, mean (source_column n <$> g.2) |})
  <$> groupby (λ r, Some (country_name r)) filtered.

Definition value_vars : list Nutrient := [Fat; Sugars; Proteins; Carbs; Salt].

Definition melted_df (avg : list MacroAvgRow)
    : list (string * Nutrient * option Q) :=
  melt Country (λ n r, amount r n) avg value_vars.

(** The callback, up to the frame handed to [px.bar].  The global [df] is
    threaded through: the callback reads it and leaves it as it was. *)
Definition update_macronutrient_chart
    (selected_countries selected_grades : list string) (nova_range : list Z)
    (df : DataFrame)
    : result (list (string * Nutrient * option Q)) * DataFrame :=
  (filtered ←! filtered_df df selected_countries selected_grades nova_range;
   Ok (melted_df (macro_avg filtered)),
   df).

End MacronutrientChart.

(** ** [update_nutrition_grade_chart] ([app2.py], lines 181-209) *)

Module NutritionGradeChart.

Definition mask (selected_countries : list string) (lo hi : Z) (r : Row)
    : bool :=
  isin (Some (country_code r)) selected_countries
  && series_ge (nova_group r) lo
  && series_le (nova_group r) hi.

Definition filtered_df (df : DataFrame) (selected_countries : list string)
    (nova_range : list Z) : result DataFrame :=
  lo ←! getitem nova_range 0;
  hi ←! getitem nova_range 1;
  Ok (boolean_index (mask selected_countries lo hi) df).

(** [groupby(['country_name', 'nutrition_grade']).size()] *)
Definition grade_counts (filtered : DataFrame) : list (string * string * nat) :=
  size (groupby (λ r, pair (country_name r) <$> nutrition_grade r) filtered).

Definition update_nutrition_grade_chart (selected_countries : list string)
    (nova_range : list Z) (df : DataFrame)
    : result (list (string * string * nat)) * DataFrame :=
  (filtered ←! filtered_df df selected_countries nova_range;
   Ok (grade_counts filtered),
   df).

End NutritionGradeChart.

(** ** [update_processing_by_country_chart] ([app2.py], lines 644-697) *)

(** A frame in wide form: one row per index label, one cell per column. *)
Definition Cell : Type := Z * option Q.
Definition WideRow : Type := string * list Cell.

Record Wide : Type := {
  columns : list Z;
  rows : list WideRow;
}.

(** [Series.unstack()] of a series indexed by (row label, column label):
    the distinct labels of each level in ascending order, and NaN in the
    cells for which the series has no entry. *)
Definition unstack (s : list (string * Z * nat)) : Wide :=
  let counts : gmap (string * Z) nat := list_to_map s in
  let cols := merge_sort kle (remove_dups (s.*1.*2)) in
  {| columns := cols;
     rows := (λ c, (c, (λ n, (n, Qnat <$> counts !! (c, n))) <$> cols) : WideRow)
             <$> merge_sort kle (remove_dups (s.*1.*1)) |}.

(** [frame.fillna(value)] *)
Definition fillna (value : Q) (w : Wide) : Wide :=
  {| columns := columns w;
     rows := (λ row : WideRow,
                (row.1, (λ c : Cell, (c.1, Some (default value c.2))) <$> row.2))
             <$> rows w |}.

(** [frame[col] = f(frame[col])], [f] being given the row label too. *)
Definition set_column (f : string → option Q → option Q) (w : Wide) (col : Z)
    : Wide :=
  {| columns := columns w;
     rows := (λ row : WideRow,
                (row.1, (λ c : Cell, if decide (c.1 = col)
                                     then (c.1, f row.1 c.2)
                                     else c) <$> row.2))
             <$> rows w |}.

(** One entry of [series / country_totals * 100]: the two series are
    aligned on the row label, and a label missing on a side gives NaN.  A
    total is the size of a group, hence never zero. *)
Definition percent_of (totals : gmap string nat) (c : string) (x : option Q)
    : option Q :=
  match x, totals !! c with
  | Some count, Some total => Some (count / Qnat total * 100)%Q
  | _, _ => None
  end.

(** Column [n] of a row of a wide frame. *)
Definition cell (n : Z) (row : WideRow) : option Q :=
  default None ((list_to_map row.2 : gmap Z (option Q)) !! n).

(** The key of [groupby(['country_name', 'nova_group'])]. *)
Definition nova_key (r : Row) : option (string * Z) :=
  pair (country_name r) <$> nova_group r.

(** The labels of the pivot table: the countries and the NOVA groups that
    occur among the keys of the two-level count. *)
Definition pivot_index (sub : DataFrame) : list string :=
  merge_sort kle (remove_dups (group_keys nova_key sub).*1).

Definition pivot_columns (sub : DataFrame) : list Z :=
  merge_sort kle (remove_dups (group_keys nova_key sub).*2).

Module ProcessingByCountryChart.

Definition mask (selected_countries selected_grades : list string) (r : Row)
    : bool :=
  isin (Some (country_code r)) selected_countries
  && isin (nutrition_grade r) selected_grades.

Definition filtered_df (df : DataFrame)
    (selected_countries selected_grades : list string) : DataFrame :=
  boolean_index (mask selected_countries selected_grades) df.

Definition country_totals (filtered : DataFrame) : list (string * nat) :=
  size (groupby (λ r, Some (country_name r)) filtered).

Definition nova_counts (filtered : DataFrame) : list (string * Z * nat) :=
  size (groupby nova_key filtered).

Definition nova_by_country (filtered : DataFrame) : Wide :=
  let totals : gmap string nat := list_to_map (country_totals filtered) in
  let counts := fillna 0 (unstack (nova_counts filtered)) in
  (* for col in nova_by_country.columns: ... *)
  foldl (set_column (percent_of totals)) counts (columns counts).

Definition melted_df (w : Wide) : list (string * Z * option Q) :=
  melt fst cell (rows w) (merge_sort kle (columns w)).

Definition update_processing_by_country_chart
    (selected_countries selected_grades : list string) (df : DataFrame)
    : list (string * Z * option Q) * DataFrame :=
  (melted_df (nova_by_country
     (filtered_df df selected_countries selected_grades)),
   df).

End ProcessingByCountryChart.

(** ** The mockup variant ([app.py], lines 234-332) *)

Module Mockup.

Definition colors : gmap string string :=
  list_to_map [
    ("background", "#0A1022"); ("text", "#FFFFFF"); ("accent1", "#5D6CDF");
    ("accent2", "#46C9E5"); ("accent3", "#FFC857"); ("panel", "#15213B");
    ("grid", "#1E2A45")
  ]%string.

(** [colors[name]]; every name the callbacks use is a key of [colors]. *)
Definition color (name : string) : string := dict_get colors name ""%string.

Inductive Datum : Set :=
  | Str (s : string)
  | Num (n : Z).

(** The one [go.Bar] trace of a figure and the layout entries that order
    or scale its data. *)
Record Figure : Type := {
  bar_x : list Datum;
  bar_y : list Datum;
  orientation : option string;
  marker_color : list string;
  text : option (list Datum);
  categoryarray : option (list string);
  bargap : Q;
}.

Definition update_nutrition_grade_chart (selected_countries : list string)
    (selected_category : option string) (nova_range : list Z) : Figure :=
  let grade_data : list (string * Z) :=
    [("A", 32); ("B", 45); ("C", 28); ("D", 18); ("E", 7)]%string in
  {| bar_y := Str <$> grade_data.*1;
     bar_x := Num <$> grade_data.*2;
     orientation := Some "h"%string;
     marker_color := [color "accent1"; color "accent2"; "#5ECDA0"%string;
                      color "accent3"; "#E15759"%string];
     text := None;
     categoryarray := Some ["E"; "D"; "C"; "B"; "A"]%string;
     bargap := (15 # 100)%Q |}.

Definition update_macronutrient_chart (selected_countries : list string)
    (selected_category : option string) (nova_range : list Z) : Figure :=
  let nutrients := ["Protein"; "Carbs"; "Fat"; "Fiber"; "Sugar"; "Salt"]%string in
  let values := [12; 38; 18; 7; 16; 9] in
  {| bar_x := Str <$> nutrients;
     bar_y := Num <$> values;
     orientation := None;
     marker_color := [color "accent2"; color "accent1"; color "accent3";
                      "#5ECDA0"; "#E15759"; "#FF9D5C"]%string;
     text := Some (Num <$> values);
     categoryarray := None;
     bargap := (4 # 10)%Q |}.

End Mockup.

(** ** The dataset of the end-to-end scenario *)

Definition mk_row (code grade : string) (nova : Z) (sugar : option Q) : Row :=
  {| country_code := code; nutrition_grade := Some grade;
     nova_group := Some nova; fat_100g := None; sugars_100g := sugar;
     proteins_100g := None; carbohydrates_100g := None; salt_100g := None |}.

Definition scenario_df : DataFrame :=
  [ mk_row "us" "A" 1 (Some 2%Q);
    mk_row "us" "B" 2 (Some 4%Q);
    mk_row "fr" "A" 1 None ].


(** Three rows of France without a sugar value, three of the United States
    of which one has none. *)
Definition null_sugar_df : DataFrame :=
  [ mk_row "fr" "A" 1 None; mk_row "fr" "B" 2 None; mk_row "fr" "A" 3 None;
    mk_row "us" "A" 1 (Some 2%Q); mk_row "us" "B" 2 None;
    mk_row "us" "C" 2 (Some 4%Q) ].

(** Rows that only differ in country and NOVA group. *)
Definition mk_nova (code : string) (nova : option Z) : Row :=
  {| country_code := code; nutrition_grade := Some "A"%string;
     nova_group := nova; fat_100g := None; sugars_100g := None;
     proteins_100g := None; carbohydrates_100g := None; salt_100g := None |}.

Definition nova_df : DataFrame :=
  [ mk_nova "de" (Some 1); mk_nova "fr" (Some 2); mk_nova "de" (Some 3);
    mk_nova "fr" (Some 4); mk_nova "de" (Some 1); mk_nova "fr" None ].

(** Germany alone, with two rows in NOVA group 1 and one in group 3. *)
Definition german_df : DataFrame :=
  [ mk_nova "de" (Some 1); mk_nova "de" (Some 1); mk_nova "de" (Some 3) ].

(** ** Reference definitions for the properties *)

(** Keys in insertion order: each key once, at its first occurrence. *)
Fixpoint insertion_order {K} `{EqDecision K} (keys : list K) : list K :=
  match keys with
  | [] => []
  | k :: rest => k :: filter (λ k', k' ≠ k) (insertion_order rest)
  end.

(** Reshaping row by row: for each row, one tidy row per metric. *)
Definition reshape_row_major {R I Var V} (id : R → I) (get : Var → R → V)
    (frame : list R) (metric_names : list Var) : list (I * Var * V) :=
  r ← frame; (λ v, (id r, v, get v r)) <$> metric_names.

(** The percentage-by-group derivation, read off the rows: the rows of a
    country in a NOVA group, the rows of the country, and their ratio. *)
Definition nova_count (sub : DataFrame) (c : string) (n : Z) : nat :=
  length (filter (λ r, country_name r = c ∧ nova_group r = Some n) sub).

Definition country_total (sub : DataFrame) (c : string) : nat :=
  length (filter (λ r, country_name r = c) sub).

Definition percentage (sub : DataFrame) (c : string) (n : Z) : Q :=
  (Qnat (nova_count sub c n) / Qnat (country_total sub c) * 100)%Q.

(** A range that breaks the invariants of a facet selection. *)
Definition invalid_range (lo hi : Z) : Prop :=
  hi < lo ∨ ¬ (1 ≤ lo ≤ 4) ∨ ¬ (1 ≤ hi ≤ 4).

(** A bound that a double holds exactly.  The NOVA column is a column of
    doubles, and comparing it with a Python integer converts the integer
    to a double: without loss up to 2^53 in absolute value, and with an
    [OverflowError] beyond the largest double.  [series_ge] and
    [series_le] compare integers, which is what the code computes for the
    bounds below. *)
Definition exact_double (b : Z) : Prop := - 2 ^ 53 ≤ b ≤ 2 ^ 53.

(** ** [hex_to_rgba] ([app.py], lines 69-73)

    The only exception the body can raise on a [str] is [ValueError]
    (a zero step for [range], a chunk [int] rejects, a tuple of the wrong
    length): [None] stands for it.  Text is ASCII. *)

Module HexColor.

(** [str.lstrip(chars)] for a single character. *)
Fixpoint lstrip (c : Ascii.ascii) (s : list Ascii.ascii) : list Ascii.ascii :=
  match s with
  | c' :: s' => if decide (c' = c) then lstrip c s' else s
  | [] => []
  end.

(** [range(0, stop, step)]: [ValueError] for a zero step; otherwise the
    [(stop - 1) // step + 1] multiples of [step] below [stop]. *)
Definition range_step (stop step : nat) : option (list nat) :=
  if decide (step = 0%nat) then None
  else Some ((λ j, j * step)%nat
             <$> seq 0 (if decide (stop = 0%nat) then 0
                        else (stop - 1) / step + 1)%nat).

(** [s[i:i + k]]; a slice past the end is cut short. *)
Definition slice (i k : nat) (s : list Ascii.ascii) : list Ascii.ascii :=
  take k (drop i s).

(** The value of a digit of [int(_, 16)]. *)
Definition hex_digit (c : Ascii.ascii) : option Z :=
  let n := Z.of_N (Ascii.N_of_ascii c) in
  if (48 <=? n) && (n <=? 57) then Some (n - 48)
  else if (97 <=? n) && (n <=? 102) then Some (n - 87)
  else if (65 <=? n) && (n <=? 70) then Some (n - 55)
  else None.

(** The characters [int] skips around a literal: space, \t, \n, \v, \f, \r. *)
Definition is_space (c : Ascii.ascii) : bool :=
  let n := Ascii.N_of_ascii c in
  ((n =? 32) || ((9 <=? n) && (n <=? 13)))%N.

Fixpoint skip_spaces (s : list Ascii.ascii) : list Ascii.ascii :=
  match s with
  | c :: s' => if is_space c then skip_spaces s' else s
  | [] => []
  end.

(** The digits of a literal: hexadecimal digits, with single underscores
    allowed between two digits.  [seen] tells what came last: [None] at the
    start, [Some true] after a digit, [Some false] after an underscore.
    The scan stops at the first other character and returns the value
    together with what is left. *)
Fixpoint scan_digits (acc : Z) (seen : option bool) (s : list Ascii.ascii)
    : option (Z * list Ascii.ascii) :=
  let stop :=
    match seen with
    | Some true => Some (acc, s)
    | _ => None
    end in
  match s with
  | c :: s' =>
      if decide (c = "_"%char) then
        match seen with
        | Some true => scan_digits acc (Some false) s'
        | _ => None
        end
      else
        match hex_digit c with
        | Some d => scan_digits (acc * 16 + d) (Some true) s'
        | None => stop
        end
  | [] => stop
  end.

(** [int(s, 16)]: optional surrounding whitespace, an optional sign, an
    optional [0x] or [0X] prefix, which one underscore may follow, and the
    digits. *)
Definition int16 (s : list Ascii.ascii) : option Z :=
  let s := skip_spaces s in
  let '(sign, s) :=
    match s with
    | "+"%char :: s' => (1, s')
    | "-"%char :: s' => (-1, s')
    | _ => (1, s)
    end in
  let '(prefixed, s) :=
    match s with
    | "0"%char :: x :: s' =>
        if decide (x = "x"%char ∨ x = "X"%char) then (true, s') else (false, s)
    | _ => (false, s)
    end in
  let s :=
    match prefixed, s with
    | true, "_"%char :: s' => s'
    | _, _ => s
    end in
  '(v, rest) ← scan_digits 0 None s;
  match skip_spaces rest with
  | [] => Some (sign * v)
  | _ => None
  end.

(** The tuple unpacked into [r, g, b] on line 72. *)
Definition components (hex_color : string) : option (Z * Z * Z) :=
  let hex_color := lstrip "#"%char (String.list_ascii_of_string hex_color) in
  let lv := length hex_color in
  starts ← range_step lv (lv / 3);
  values ← mapM (λ i, int16 (slice i (lv / 3) hex_color)) starts;
  match values with
  | [r; g; b] => Some (r, g, b)
  | _ => None
  end.

(** The limit of CPython on the text of an integer
    ([sys.get_int_max_str_digits()], 4300 by default). *)
Definition max_str_digits : Z := 4300.

(** [f'{n}'] for an integer [n]: its decimal digits, with [ValueError] for
    an integer of more than [max_str_digits] digits. *)
Definition format_int (n : Z) : option string :=
  if decide (Z.abs n < 10 ^ max_str_digits) then Some (pretty n) else None.

(** [alpha] is the text the f-string gives the opacity. *)
Definition hex_to_rgba (hex_color : string) (alpha : string) : option string :=
  '(r, g, b) ← components hex_color;
  r ← format_int r;
  g ← format_int g;
  b ← format_int b;
  Some ("rgba(" +:+ r +:+ "," +:+ g +:+ "," +:+ b +:+ "," +:+ alpha +:+ ")").

End HexColor.

(** ** The other columns and callbacks of [app2.py] *)

(** A row of the dataset with the columns that only the callbacks below
    read, next to those of [Row]. *)
Record Product : Type := {
  core :> Row;
  additives_n : option Q;
  nutrition_score : option Q;
  ingredients_count : option Q;
  product_name : option string;
}.

Definition gdp_per_capita : gmap string Z :=
  list_to_map [
    ("us", 65000); ("fr", 38000); ("uk", 40000); ("de", 45000);
    ("es", 27000); ("it", 31000); ("cn", 10000); ("jp", 40000);
    ("in", 2000); ("br", 8000); ("au", 55000)
  ]%string.

(** [df['gdp_per_capita'] = df['country_code'].map(gdp_per_capita)]: a code
    that is no key of the dictionary gives NaN; the values are whole
    numbers and are kept as such. *)
Definition gdp_of (r : Row) : option Z := gdp_per_capita !! country_code r.

(** [dict.get(key, default)] on NOVA groups. *)
Definition nova_get {V} (d : gmap Z V) (key : Z) (default : V) : V :=
  match d !! key with
  | Some v => v
  | None => default
  end.

(** *** The layout: options and default values of the two dropdowns
    ([app2.py], lines 74-90) *)

(** [df['country_code'].unique()]: the codes in order of first appearance. *)
Definition country_options (df : DataFrame) : list string :=
  insertion_order (country_code <$> df).

(** [df['country_code'].unique().tolist()[:5]] *)
Definition default_countries (df : DataFrame) : list string :=
  take 5 (country_options df).

(** [sorted(df['nutrition_grade'].dropna().unique())], the options and the
    default value of the grade dropdown alike. *)
Definition grade_options (df : DataFrame) : list string :=
  merge_sort kle (insertion_order (omap nutrition_grade df)).

(** *** [update_nova_group_chart] ([app2.py], lines 331-369) *)

Module NovaGroupChart.

Definition filtered_df (df : DataFrame)
    (selected_countries selected_grades : list string) : DataFrame :=
  boolean_index
    (λ r, isin (Some (country_code r)) selected_countries
          && isin (nutrition_grade r) selected_grades) df.

Definition nova_descriptions : gmap Z string :=
  list_to_map [
    (1, "Unprocessed/minimally processed");
    (2, "Processed culinary ingredients");
    (3, "Processed foods");
    (4, "Ultra-processed foods")
  ]%string.

(** [f"Group {int(x)}: {nova_descriptions.get(int(x), '')}"] *)
Definition description (x : Z) : string :=
  "Group " +:+ pretty x +:+ ": " +:+ nova_get nova_descriptions x "".

(** The frame handed to [px.bar]: country, NOVA group, count, description. *)
Definition nova_counts (filtered : DataFrame)
    : list (string * Z * nat * string) :=
  (λ e : string * Z * nat, (e, description e.1.2))
  <$> size (groupby nova_key filtered).

Definition update_nova_group_chart
    (selected_countries selected_grades : list string) (df : DataFrame)
    : list (string * Z * nat * string) * DataFrame :=
  (nova_counts (filtered_df df selected_countries selected_grades), df).

End NovaGroupChart.

(** *** [update_nutrition_radar_chart] ([app2.py], lines 271-323) *)

(** [map] in the result monad, left to right. *)
Fixpoint traverse {A B} (f : A → result B) (l : list A) : result (list B) :=
  match l with
  | [] => Ok []
  | a :: l' => b ←! f a; bs ←! traverse f l'; Ok (b :: bs)
  end.

Module RadarChart.

Inductive Category : Set :=
  | Fat | Sugars | Proteins | Carbs | Salt | Additives | NutritionScore.

Definition categories : list Category :=
  [Fat; Sugars; Proteins; Carbs; Salt; Additives; NutritionScore].

(** The aggregated column behind each category. *)
Definition column (c : Category) (p : Product) : option Q :=
  match c with
  | Fat => fat_100g p
  | Sugars => sugars_100g p
  | Proteins => proteins_100g p
  | Carbs => carbohydrates_100g p
  | Salt => salt_100g p
  | Additives => additives_n p
  | NutritionScore => nutrition_score p
  end.

Record RadarRow : Type := {
  Country : string;
  value : Category → option Q;
}.

Record Trace : Type := {
  r : list (option Q);
  theta : list Category;
  name : string;
}.

Definition filtered_df (df : list Product)
    (selected_countries selected_grades : list string) (nova_range : list Z)
    : result (list Product) :=
  lo ←! getitem nova_range 0;
  hi ←! getitem nova_range 1;
  Ok (boolean_index
        (λ p : Product, MacronutrientChart.mask selected_countries selected_grades
                lo hi p) df).

Definition radar_data (filtered : list Product) : list RadarRow :=
  (λ g, {| Country := g.1;
           value := λ c, mean (column c <$> g.2) |})
  <$> groupby (λ p : Product, Some (country_name p)) filtered.

(** One pass of the loop over [radar_data['Country']]. *)
Definition trace (data : list RadarRow) (country : string) : result Trace :=
  let country_data := filter (λ row, Country row = country) data in
  (* country_data[categories].values.flatten().tolist() *)
  let values := row ← country_data; (λ c, value row c) <$> categories in
  first ←! getitem values 0;
  head_category ←! getitem categories 0;
  Ok {| r := values ++ [first];
        theta := categories ++ [head_category];
        name := country |}.

(** The callback, up to the traces of the figure. *)
Definition update_nutrition_radar_chart
    (selected_countries selected_grades : list string) (nova_range : list Z)
    (df : list Product) : result (list Trace) * list Product :=
  (filtered ←! filtered_df df selected_countries selected_grades nova_range;
   let data := radar_data filtered in
   traverse (trace data) (Country <$> data),
   df).

End RadarChart.

(** *** [update_additives_vs_nutrition_chart] ([app2.py], lines 413-520) *)

(** A frame together with the names of its columns: the callback asks
    which columns there are before it reads them.  A field of a row whose
    column is not listed carries no information. *)
Record Frame : Type := {
  frame_columns : list string;
  frame_rows : list Product;
}.

Definition Qleb : relation Q := λ a b, Qle_bool a b = true.

Global Instance Qleb_dec (a b : Q) : Decision (Qleb a b).
Proof. unfold Qleb. apply _. Defined.

(** [Series.median()] with [skipna=True]: the middle of the sorted values
    that are there, the mean of the two middle ones when their number is
    even, NaN when there is none. *)
Definition median (xs : list (option Q)) : option Q :=
  let sorted := merge_sort Qleb (omap id xs) in
  let n := length sorted in
  if decide (n = 0%nat) then None
  else if Nat.odd n then sorted !! (n / 2)%nat
  else a ← sorted !! (n / 2 - 1)%nat;
       b ← sorted !! (n / 2)%nat;
       Some ((a + b) / 2)%Q.

(** [Series.max()] with [skipna=True]. *)
Definition Qmax_list (xs : list (option Q)) : option Q :=
  foldr (λ x acc,
           match acc with
           | None => Some x
           | Some y => Some (if Qle_bool y x then x else y)
           end) None (omap id xs).

(** [Series.fillna(value)] *)
Definition series_fillna (value : Q) (xs : list (option Q)) : list (option Q) :=
  (λ x, Some (default value x)) <$> xs.

Module AdditivesVsNutritionChart.

Record Scatter : Type := {
  x : list (option Q);                      (* additives_n *)
  y : list (option Q);                      (* nutrition_score *)
  color : option (list string);             (* country_name *)
  size : option (list (option Q));          (* ingredients_count_filled *)
  hover_name : option (list (option string));
  hover_data : list string;
  lines : list (Z * option Q);              (* y0 = y1, and x1 *)
  annotations : list (Z * string);
}.

Inductive Figure : Type :=
  | Placeholder (title : string)
  | Plot (s : Scatter).

Definition has (columns : list string) (column : string) : bool :=
  bool_decide (column ∈ columns).

Definition isna {A} (x : option A) : bool :=
  match x with
  | Some _ => false
  | None => true
  end.

(** The three filtering steps, the second and third under their column
    checks; [None] when the columns of the third are missing. *)
Definition filtered_df (df : Frame) (selected_countries : list string)
    (nova_range : list Z) : result (option (list Product)) :=
  let filtered :=
    boolean_index (λ p : Product,
                     isin (Some (country_code p)) selected_countries)
                  (frame_rows df) in
  filtered ←!
    (if has (frame_columns df) "nova_group" then
       lo ←! getitem nova_range 0;
       hi ←! getitem nova_range 1;
       Ok (boolean_index (λ p : Product,
                            series_ge (nova_group p) lo
                            && series_le (nova_group p) hi) filtered)
     else Ok filtered);
  if has (frame_columns df) "additives_n"
     && has (frame_columns df) "nutrition_score" then
    Ok (Some (boolean_index (λ p, negb (isna (additives_n p))
                                  && negb (isna (nutrition_score p)))
                            filtered))
  else Ok None.

(** The size column: the ingredient counts with their gaps filled by the
    median, when the column is there and not all of it is missing. *)
Definition size_column (columns : list string) (filtered : list Product)
    : option (list (option Q)) :=
  if has columns "ingredients_count" then
    let counts := ingredients_count <$> filtered in
    if forallb isna counts then None
    else
      let median_value :=
        match median counts with
        | Some m => m
        | None => 1%Q
        end in
      Some (series_fillna median_value counts)
  else None.

Definition grade_lines : list (Z * string) :=
  [(5, "A"); (4, "B"); (3, "C"); (2, "D"); (1, "E")]%string.

(** The scatter plot of a non-empty subset: [px.scatter] and the five
    grade lines with their annotations. *)
Definition scatter (columns : list string) (filtered : list Product)
    : Scatter :=
  let max_additives := Qmax_list (additives_n <$> filtered) in
  {| x := additives_n <$> filtered;
     y := nutrition_score <$> filtered;
     color := if has columns "country_name"
              then Some ((λ p : Product, country_name p) <$> filtered)
              else None;
     size := size_column columns filtered;
     hover_name := if has columns "product_name"
                   then Some (product_name <$> filtered) else None;
     hover_data :=
       (if has columns "brands" then ["brands"] else [])
       ++ (if has columns "nutrition_grade" then ["nutrition_grade"] else [])
       ++ (if has columns "nova_group" then ["nova_group"] else []);
     lines := (λ g : Z * string, (g.1, max_additives)) <$> grade_lines;
     annotations :=
       (λ g : Z * string, (g.1, "Grade " +:+ g.2)) <$> grade_lines |}.

Definition update_additives_vs_nutrition_chart
    (selected_countries : list string) (nova_range : list Z) (df : Frame)
    : result Figure * Frame :=
  (filtered ←! filtered_df df selected_countries nova_range;
   match filtered with
   | None =>
       Ok (Placeholder
             "Required data columns are missing for this visualization")
   | Some [] => Ok (Placeholder "No data available with current filters")
   | Some filtered => Ok (Plot (scatter (frame_columns df) filtered))
   end,
   df).

End AdditivesVsNutritionChart.

(** *** [update_gdp_vs_nutrition_chart] ([app2.py], lines 529-573) *)

(** The filter, the aggregate and the annotations of the callback.  The
    figure that [px.scatter] draws from the aggregate is not modelled. *)

Module GdpChart.

Definition mask (selected_grades : list string) (lo hi : Z) (p : Product)
    : bool :=
  isin (nutrition_grade p) selected_grades
  && series_ge (nova_group p) lo
  && series_le (nova_group p) hi
  && negb (AdditivesVsNutritionChart.isna (gdp_of p)).

Definition filtered_df (df : list Product) (selected_grades : list string)
    (nova_range : list Z) : result (list Product) :=
  lo ←! getitem nova_range 0;
  hi ←! getitem nova_range 1;
  Ok (boolean_index (mask selected_grades lo hi) df).

Record GdpRow : Type := {
  country : string;
  gdp : Z;
  score : option Q;          (* mean nutrition_score *)
  nova : option Q;           (* mean nova_group *)
  additives : option Q;      (* mean additives_n *)
}.

(** The key of [groupby(['country_name', 'gdp_per_capita'])]. *)
Definition gdp_key (p : Product) : option (string * Z) :=
  pair (country_name p) <$> gdp_of p.

Definition gdp_data (filtered : list Product) : list GdpRow :=
  (λ g : string * Z * list Product,
     {| country := g.1.1;
        gdp := g.1.2;
        score := mean (nutrition_score <$> g.2);
        nova := mean ((λ p : Product, inject_Z <$> nova_group p) <$> g.2);
        additives := mean (additives_n <$> g.2) |})
  <$> groupby gdp_key filtered.

(** The annotations added by the loop over [gdp_data.iterrows()]:
    position and text. *)
Definition labels (data : list GdpRow) : list (Z * option Q * string) :=
  (λ row, (gdp row, score row, country row)) <$> data.

End GdpChart.

(** *** Reference definitions for the properties of these callbacks *)

(** The trace the loop builds from a row of [radar_data]. *)
Definition closed_trace (row : RadarChart.RadarRow) : RadarChart.Trace :=
  {| RadarChart.r := (RadarChart.value row <$> RadarChart.categories)
                     ++ [RadarChart.value row RadarChart.Fat];
     RadarChart.theta := RadarChart.categories ++ [RadarChart.Fat];
     RadarChart.name := RadarChart.Country row |}.

(** A small frame with all the columns: two rows of the United States, one
    of France without a nutrition score, one of an unlisted country. *)
Definition mk_product (code grade : string) (nova : Z)
    (sugar additives score ingredients : option Q) : Product :=
  {| core := mk_row code grade nova sugar;
     additives_n := additives; nutrition_score := score;
     ingredients_count := ingredients; product_name := None |}.

Definition sample_products : list Product :=
  [ mk_product "us" "A" 1 (Some 2%Q) (Some 1%Q) (Some 5%Q) (Some 3%Q);
    mk_product "us" "B" 2 (Some 4%Q) (Some 3%Q) (Some 4%Q) None;
    mk_product "fr" "A" 1 None (Some 0%Q) None (Some 9%Q);
    mk_product "xx" "A" 4 None (Some 7%Q) (Some 1%Q) (Some 5%Q) ].

Definition sample_frame : Frame :=
  {| frame_columns := ["nova_group"; "additives_n"; "nutrition_score";
                       "ingredients_count"; "country_name"]%string;
     frame_rows := sample_products |}.

(** The value of a string of hexadecimal digits, most significant first. *)
Definition hex_value (s : list Ascii.ascii) : Z :=
  foldl (λ acc c, acc * 16 + default 0 (HexColor.hex_digit c)) 0 s.

(** The text of a colour once its leading [#] are gone. *)
Definition hex_digits_of (hex_color : string) : list Ascii.ascii :=
  HexColor.lstrip "#"%char (String.list_ascii_of_string hex_color).


(** * Properties *)

(** ** The result monad *)

Lemma getitem_Ok {A} (l : list A) (i : nat) (a : A) :
  getitem l i = Ok a ↔ l !! i = Some a.
Proof. unfold getitem. destruct (l !! i); split; congruence. Qed.

Lemma bind_Ok {A B} (m : result A) (k : A → result B) (b : B) :
  bind m k = Ok b ↔ ∃ a, m = Ok a ∧ k a = Ok b.
Proof.
  destruct m as [a|e]; simpl; split.
  - eauto.
  - intros (a' & [= <-] & Hk). exact Hk.
  - discriminate.
  - intros (a' & [=] & _).
Qed.

(** ** Boolean indexing *)

Section BooleanIndex.
Context {R : Type} (mask : R → bool).

Lemma elem_of_boolean_index (frame : list R) (r : R) :
  r ∈ boolean_index mask frame ↔ r ∈ frame ∧ mask r = true.
Proof. unfold boolean_index. rewrite list_elem_of_filter. tauto. Qed.

Lemma boolean_index_idemp (frame : list R) :
  boolean_index mask (boolean_index mask frame) = boolean_index mask frame.
Proof.
  unfold boolean_index. rewrite list_filter_filter.
  apply list_filter_iff. tauto.
Qed.

Lemma boolean_index_sublist (frame : list R) :
  boolean_index mask frame `sublist_of` frame.
Proof. apply sublist_filter. Qed.

Lemma boolean_index_none (frame : list R) :
  (∀ r, r ∈ frame → mask r = false) → boolean_index mask frame = [].
Proof.
  unfold boolean_index. induction frame as [|r frame IH]; intros Hall.
  - reflexivity.
  - rewrite filter_cons_False.
    + apply IH. intros r' Hr'. apply Hall. now right.
    + rewrite (Hall r); [discriminate | left].
Qed.

End BooleanIndex.

(** ** The comparisons of the mask *)

Lemma isin_true (x : option string) (values : list string) :
  isin x values = true ↔ ∃ s, x = Some s ∧ s ∈ values.
Proof.
  destruct x as [s|]; simpl.
  - rewrite bool_decide_eq_true. split; [eauto|]. now intros (? & [= <-] & ?).
  - split; [discriminate|]. now intros (? & [=] & _).
Qed.


Lemma series_between (x : option Z) (lo hi : Z) :
  series_ge x lo && series_le x hi = true ↔ ∃ n, x = Some n ∧ lo ≤ n ≤ hi.
Proof.
  destruct x as [n|]; simpl.
  - rewrite andb_true_iff, !Z.leb_le. split; [eauto|].
    now intros (? & [= <-] & ?).
  - split; [discriminate|]. now intros (? & [=] & _).
Qed.

Lemma macronutrient_mask_true cs gs lo hi (r : Row) :
  MacronutrientChart.mask cs gs lo hi r = true ↔
  country_code r ∈ cs
  ∧ (∃ g, nutrition_grade r = Some g ∧ g ∈ gs)
  ∧ (∃ n, nova_group r = Some n ∧ lo ≤ n ≤ hi).
Proof.
  unfold MacronutrientChart.mask.
  rewrite <- andb_assoc, andb_true_iff, series_between, andb_true_iff.
  rewrite !isin_true. split.
  - intros (((s & [= <-] & Hs) & Hg) & Hn). auto.
  - intros (Hc & Hg & Hn). eauto 6.
Qed.

Lemma macronutrient_filtered_df_Ok df cs gs nova_range sub :
  MacronutrientChart.filtered_df df cs gs nova_range = Ok sub ↔
  ∃ lo hi, nova_range !! 0%nat = Some lo ∧ nova_range !! 1%nat = Some hi
           ∧ sub = boolean_index (MacronutrientChart.mask cs gs lo hi) df.
Proof.
  unfold MacronutrientChart.filtered_df. rewrite bind_Ok. split.
  - intros (lo & Hlo & H). apply bind_Ok in H as (hi & Hhi & [= <-]).
    apply getitem_Ok in Hlo, Hhi. eauto.
  - intros (lo & hi & Hlo & Hhi & ->). exists lo. split.
    + now apply getitem_Ok.
    + apply bind_Ok. exists hi. split; [now apply getitem_Ok | reflexivity].
Qed.

(** ** The facet filter *)


(** C6. Filtering is idempotent and order-preserving: filtering the
    filtered subset again with the same selection gives the same result
    (the same rows, or the same exception), the subset is a subsequence of
    the dataset, and the callback leaves the global [df] as it found it. *)
Theorem filter_idempotent_order_preserving
    (df : DataFrame) (cs gs : list string) (nova_range : list Z) :
  (sub ←! MacronutrientChart.filtered_df df cs gs nova_range;
   MacronutrientChart.filtered_df sub cs gs nova_range)
  = MacronutrientChart.filtered_df df cs gs nova_range
  ∧ (∀ sub, MacronutrientChart.filtered_df df cs gs nova_range = Ok sub →
            sub `sublist_of` df)
  ∧ (MacronutrientChart.update_macronutrient_chart cs gs nova_range df).2 = df.
Proof.
  split; [|split].
  - unfold MacronutrientChart.filtered_df, getitem.
    destruct (nova_range !! 0%nat) as [lo|]; [|reflexivity].
    destruct (nova_range !! 1%nat) as [hi|]; [|reflexivity].
    simpl. now rewrite boolean_index_idemp.
  - intros sub (lo & hi & _ & _ & ->)%macronutrient_filtered_df_Ok.
    apply boolean_index_sublist.
  - reflexivity.
Qed.

Lemma filter_idempotent_order_preserving_witness :
  [nth 0%nat scenario_df (mk_row "" "" 0 None);
   nth 2%nat scenario_df (mk_row "" "" 0 None)] `sublist_of` scenario_df.
Proof.
  apply (proj1 (proj2 (filter_idempotent_order_preserving
                         scenario_df ["us"; "fr"]%string ["A"]%string [1; 4]))).
  reflexivity.
Defined.

(** C7. The filtered subset holds exactly the rows of the dataset that
    satisfy the three predicates together: country code among the selected
    ones, grade among the selected ones, NOVA group within the inclusive
    range.  A row whose grade or NOVA group is missing is never in it. *)
Theorem filter_conjunction
    (df : DataFrame) (cs gs : list string) (nova_range : list Z)
    (sub : DataFrame) :
  MacronutrientChart.filtered_df df cs gs nova_range = Ok sub →
  ∃ lo hi, nova_range !! 0%nat = Some lo ∧ nova_range !! 1%nat = Some hi
    ∧ (∀ r, r ∈ sub ↔
            r ∈ df
            ∧ country_code r ∈ cs
            ∧ (∃ g, nutrition_grade r = Some g ∧ g ∈ gs)
            ∧ (∃ n, nova_group r = Some n ∧ lo ≤ n ≤ hi))
    ∧ (∀ r, nutrition_grade r = None ∨ nova_group r = None → r ∉ sub).
Proof.
  intros (lo & hi & Hlo & Hhi & ->)%macronutrient_filtered_df_Ok.
  exists lo, hi. split; [assumption|]. split; [assumption|].
  assert (Hiff : ∀ r, r ∈ boolean_index (MacronutrientChart.mask cs gs lo hi) df ↔
            r ∈ df
            ∧ country_code r ∈ cs
            ∧ (∃ g, nutrition_grade r = Some g ∧ g ∈ gs)
            ∧ (∃ n, nova_group r = Some n ∧ lo ≤ n ≤ hi)).
  { intros r. rewrite elem_of_boolean_index, macronutrient_mask_true. tauto. }
  split; [exact Hiff|].
  intros r Hnull (_ & _ & (g & Hg & _) & (n & Hn & _))%Hiff.
  destruct Hnull; congruence.
Qed.

Lemma filter_conjunction_witness :
  ∃ lo hi, [1; 2] !! 0%nat = Some lo ∧ [1; 2] !! 1%nat = Some hi
    ∧ (∀ r, r ∈ scenario_df ↔
            r ∈ scenario_df
            ∧ country_code r ∈ ["us"; "fr"]%string
            ∧ (∃ g, nutrition_grade r = Some g ∧ g ∈ ["A"; "B"]%string)
            ∧ (∃ n, nova_group r = Some n ∧ lo ≤ n ≤ hi))
    ∧ (∀ r, nutrition_grade r = None ∨ nova_group r = None → r ∉ scenario_df).
Proof.
  apply (filter_conjunction scenario_df ["us"; "fr"]%string ["A"; "B"]%string
           [1; 2] scenario_df).
  reflexivity.
Defined.

(** ** Range validation *)

(** C8, as stated, fails: the inverted range [3, 1] and the out-of-domain
    range [0, 9] are both accepted; the first gives the empty subset, the
    second the rows that lie within the bounds as given. *)
Lemma invalid_range_accepted :
  invalid_range 3 1
  ∧ MacronutrientChart.filtered_df scenario_df
      ["us"; "fr"]%string ["A"; "B"]%string [3; 1] = Ok []
  ∧ invalid_range 0 9
  ∧ MacronutrientChart.filtered_df scenario_df
      ["us"; "fr"]%string ["A"; "B"]%string [0; 9] = Ok scenario_df.
Proof.
  unfold invalid_range. repeat split; try reflexivity; lia.
Qed.

(** C8, amended.  A range that violates its invariants (low above high, or
    a bound outside 1..4) and whose two bounds a double holds exactly is
    not rejected: the filter returns a subset, made of the rows whose NOVA
    group lies within the bounds exactly as given, without clamping them,
    which is no row at all when low > high. *)
Theorem range_is_not_validated
    (df : DataFrame) (cs gs : list string) (lo hi : Z) (rest : list Z) :
  invalid_range lo hi → exact_double lo → exact_double hi →
  ∃ sub, MacronutrientChart.filtered_df df cs gs (lo :: hi :: rest) = Ok sub
    ∧ (∀ r, r ∈ sub ↔
            r ∈ df
            ∧ country_code r ∈ cs
            ∧ (∃ g, nutrition_grade r = Some g ∧ g ∈ gs)
            ∧ (∃ n, nova_group r = Some n ∧ lo ≤ n ≤ hi))
    ∧ (hi < lo → sub = []).
Proof.
  intros _ _ _.
  exists (boolean_index (MacronutrientChart.mask cs gs lo hi) df).
  split; [reflexivity|]. split.
  - intros r. rewrite elem_of_boolean_index, macronutrient_mask_true. tauto.
  - intros Hinv. apply boolean_index_none. intros r _.
    destruct (MacronutrientChart.mask cs gs lo hi r) eqn:Hm; [|reflexivity].
    apply macronutrient_mask_true in Hm as (_ & _ & n & _ & Hn). lia.
Qed.

Lemma range_is_not_validated_witness :
  ∃ sub, MacronutrientChart.filtered_df scenario_df
           ["us"; "fr"]%string ["A"; "B"]%string [3; 1] = Ok sub
    ∧ (∀ r, r ∈ sub ↔
            r ∈ scenario_df
            ∧ country_code r ∈ ["us"; "fr"]%string
            ∧ (∃ g, nutrition_grade r = Some g ∧ g ∈ ["A"; "B"]%string)
            ∧ (∃ n, nova_group r = Some n ∧ 3 ≤ n ≤ 1))
    ∧ (1 < 3 → sub = []).
Proof.
  apply (range_is_not_validated scenario_df
           ["us"; "fr"]%string ["A"; "B"]%string 3 1 []).
  - unfold invalid_range. lia.
  - unfold exact_double. lia.
  - unfold exact_double. lia.
Defined.

(** ** Country display names *)

(** C9. The display name of a country code is the name the lookup table
    gives it when the code is a key of the table, and the upper-cased code
    otherwise; the function is total, so the fallback is no error. *)
Theorem clean_country_name_table_or_upper (code : string) :
  (∀ name, country_map !! code = Some name → clean_country_name code = name)
  ∧ (country_map !! code = None → clean_country_name code = upper code).
Proof.
  unfold clean_country_name, dict_get. split.
  - intros name ->. reflexivity.
  - intros ->. reflexivity.
Qed.

Lemma clean_country_name_table_or_upper_witness :
  clean_country_name "de" = "Germany"%string
  ∧ clean_country_name "ca" = "CA"%string.
Proof.
  split.
  - apply (proj1 (clean_country_name_table_or_upper "de")). reflexivity.
  - apply (proj2 (clean_country_name_table_or_upper "ca")). reflexivity.
Defined.

(** ** The mockup callbacks *)

(** C10. In the mockup variant the two chart callbacks ignore the
    selection: any two argument tuples give the same figure, which carries
    the hardcoded grade counts, resp. nutrient amounts. *)
Theorem mockup_charts_ignore_selection
    (countries countries' : list string) (category category' : option string)
    (nova_range nova_range' : list Z) :
  Mockup.update_nutrition_grade_chart countries category nova_range
  = Mockup.update_nutrition_grade_chart countries' category' nova_range'
  ∧ Mockup.update_macronutrient_chart countries category nova_range
    = Mockup.update_macronutrient_chart countries' category' nova_range'
  ∧ Mockup.bar_x
      (Mockup.update_nutrition_grade_chart countries category nova_range)
    = Mockup.Num <$> [32; 45; 28; 18; 7]
  ∧ Mockup.bar_y
      (Mockup.update_macronutrient_chart countries category nova_range)
    = Mockup.Num <$> [12; 38; 18; 7; 16; 9].
Proof. repeat split. Qed.

(** ** Grouping *)

Lemma StronglySorted_strict {K} `{KeyOrd K} (l : list K) :
  StronglySorted kle l → NoDup l → StronglySorted klt l.
Proof.
  induction 1 as [|a l Hs IH Hall]; intros Hnd; constructor.
  - apply IH. now apply NoDup_cons in Hnd as [_ ?].
  - apply NoDup_cons in Hnd as [Ha _].
    rewrite Forall_forall in Hall |- *. intros b Hb. split.
    + now apply Hall.
    + intros ->. contradiction.
Qed.

Section GroupByFacts.
Context {R K : Type} `{EqDecision K} `{KeyOrd K}.
Implicit Types (key : R → option K) (frame : list R) (k : K).

Lemma elem_of_group_keys key frame k :
  k ∈ group_keys key frame ↔ ∃ r, r ∈ frame ∧ key r = Some k.
Proof.
  unfold group_keys.
  rewrite merge_sort_Permutation, elem_of_remove_dups, list_elem_of_omap.
  reflexivity.
Qed.

Lemma NoDup_group_keys key frame : NoDup (group_keys key frame).
Proof.
  unfold group_keys. rewrite merge_sort_Permutation. apply NoDup_remove_dups.
Qed.

Lemma group_keys_ascending key frame : StronglySorted klt (group_keys key frame).
Proof.
  apply StronglySorted_strict.
  - apply StronglySorted_merge_sort; apply _.
  - apply NoDup_group_keys.
Qed.

Lemma groupby_keys key frame : (groupby key frame).*1 = group_keys key frame.
Proof.
  unfold groupby. rewrite <- list_fmap_compose. apply list_fmap_id.
Qed.

Lemma size_keys key frame : (size (groupby key frame)).*1 = group_keys key frame.
Proof.
  unfold size. rewrite <- list_fmap_compose. apply groupby_keys.
Qed.

Lemma size_groupby key frame :
  size (groupby key frame)
  = (λ k, (k, length (get_group key frame k))) <$> group_keys key frame.
Proof. unfold size, groupby. now rewrite <- list_fmap_compose. Qed.

End GroupByFacts.

Lemma klt_string (a b : string) : klt a b ↔ String.compare a b = Lt.
Proof.
  unfold klt, kle; simpl. unfold String.leb. split.
  - intros [Hle Hne]. destruct (String.compare a b) eqn:Hc;
      [apply String.compare_eq_iff in Hc | | ]; congruence.
  - intros Hc. rewrite Hc. split; [reflexivity|].
    intros ->. revert Hc. clear. induction b as [|c b IH]; simpl; [discriminate|].
    rewrite ascii_compare_refl. exact IH.
Qed.

Lemma klt_pair {A B} `{EqDecision A} `{KeyOrd A} `{KeyOrd B}
    (a1 a2 : A) (b1 b2 : B) :
  klt (a1, b1) (a2, b2) ↔ klt a1 a2 ∨ (a1 = a2 ∧ klt b1 b2).
Proof.
  unfold klt, kle; simpl. unfold pair_leb; simpl. case_decide as Ha.
  - subst. split.
    + intros [Hle Hne]. right. split; [reflexivity|].
      split; [assumption | congruence].
    + intros [[_ Hne] | [_ [Hle Hne]]]; [congruence|].
      split; [assumption | congruence].
  - split.
    + intros [Hle _]. left. tauto.
    + intros [[Hle _] | [Heq _]]; [|contradiction].
      split; [assumption | congruence].
Qed.

(** C1, as stated, fails on the end-to-end scenario of the spec: the
    filtered subset is the three rows us, us, fr, whose keys in insertion
    order are United States, France, while the aggregate lists France
    first. *)
Lemma group_keys_not_in_insertion_order :
  MacronutrientChart.filtered_df scenario_df
    ["us"; "fr"]%string ["A"; "B"]%string [1; 2] = Ok scenario_df
  ∧ insertion_order (country_name <$> scenario_df)
    = ["United States"; "France"]%string
  ∧ Country <$> MacronutrientChart.macro_avg scenario_df
    = ["France"; "United States"]%string
  ∧ Country <$> MacronutrientChart.macro_avg scenario_df
    ≠ insertion_order (country_name <$> scenario_df).
Proof. repeat split. discriminate. Qed.

(** C1, amended.  The aggregation step emits its group keys in ascending
    order, each key once: the country names of the subset in code-point
    order for [groupby('country_name')], and the (country name, grade)
    pairs of the rows that have a grade in lexicographic order for
    [groupby(['country_name', 'nutrition_grade'])]. *)
Theorem group_keys_ascending_order (sub : DataFrame) :
  StronglySorted klt (Country <$> MacronutrientChart.macro_avg sub)
  ∧ (∀ k, k ∈ Country <$> MacronutrientChart.macro_avg sub ↔
          k ∈ country_name <$> sub)
  ∧ StronglySorted klt (NutritionGradeChart.grade_counts sub).*1
  ∧ (∀ c g, (c, g) ∈ (NutritionGradeChart.grade_counts sub).*1 ↔
            ∃ r, r ∈ sub ∧ country_name r = c ∧ nutrition_grade r = Some g).
Proof.
  assert (Hkeys : Country <$> MacronutrientChart.macro_avg sub
                  = group_keys (λ r, Some (country_name r)) sub).
  { unfold MacronutrientChart.macro_avg.
    rewrite <- list_fmap_compose. apply groupby_keys. }
  unfold NutritionGradeChart.grade_counts. rewrite Hkeys, size_keys.
  split; [apply group_keys_ascending|]. split; [|split].
  - intros k. rewrite elem_of_group_keys, list_elem_of_fmap. split.
    + intros (r & Hr & [= <-]). eauto.
    + intros (r & -> & Hr). eauto.
  - apply group_keys_ascending.
  - intros c g. rewrite elem_of_group_keys. split.
    + intros (r & Hr & Hk). exists r. split; [assumption|].
      destruct (nutrition_grade r) as [g'|]; simpl in Hk; [|discriminate].
      injection Hk as <- <-. auto.
    + intros (r & Hr & <- & Hg). exists r. rewrite Hg. auto.
Qed.

(** ** Means *)

Lemma omap_id_nil {A} (xs : list (option A)) :
  omap id xs = [] ↔ ∀ x, x ∈ xs → x = None.
Proof.
  induction xs as [|[a|] xs IH]; simpl.
  - split; [|reflexivity]. intros _ x Hx. now apply elem_of_nil in Hx.
  - split; [discriminate|]. intros Hall.
    specialize (Hall (Some a) (list_elem_of_here _ _)). discriminate.
  - rewrite IH. split.
    + intros Hall x [->|Hx]%elem_of_cons; auto.
    + intros Hall x Hx. apply Hall. now right.
Qed.

Lemma mean_None (xs : list (option Q)) :
  mean xs = None ↔ ∀ x, x ∈ xs → x = None.
Proof.
  rewrite <- omap_id_nil. unfold mean.
  destruct (omap id xs); split; congruence.
Qed.

Lemma mean_Some (xs : list (option Q)) (q : Q) :
  mean xs = Some q →
  omap id xs ≠ [] ∧ q = (Qsum (omap id xs) / Qnat (length (omap id xs)))%Q.
Proof.
  unfold mean. destruct (omap id xs) as [|y ys]; [discriminate|].
  intros [= <-]. split; [discriminate | reflexivity].
Qed.

Lemma macro_avg_row (sub : DataFrame) (k : string) :
  k ∈ country_name <$> sub →
  {| Country := k;
     amount := λ n, mean (source_column n
                            <$> get_group (λ r, Some (country_name r)) sub k) |}
  ∈ MacronutrientChart.macro_avg sub.
Proof.
  intros (r & -> & Hr)%list_elem_of_fmap.
  unfold MacronutrientChart.macro_avg, groupby.
  rewrite <- list_fmap_compose.
  apply (list_elem_of_fmap_2
           (λ k, {| Country := k;
                    amount := λ n, mean (source_column n
                       <$> get_group (λ r, Some (country_name r)) sub k) |})).
  apply elem_of_group_keys. eauto.
Qed.

Lemma get_group_country_name (sub : DataFrame) (k : string) :
  get_group (λ r, Some (country_name r)) sub k
  = filter (λ r, country_name r = k) sub.
Proof.
  unfold get_group. apply list_filter_iff. intros r. split; congruence.
Qed.

(** C3. Every country of the subset has an aggregate row, and in it the
    mean of a nutrient is null exactly when every row of that country has a
    null in the nutrient's column; otherwise it is the sum of the non-null
    values divided by their number, the nulls being left out.  The
    aggregate is a total function: no input makes it raise. *)
Theorem all_null_group_has_null_mean (sub : DataFrame) (k : string) :
  k ∈ country_name <$> sub →
  ∃ row, row ∈ MacronutrientChart.macro_avg sub ∧ Country row = k ∧
    ∀ n : Nutrient,
      let xs := source_column n <$> filter (λ r, country_name r = k) sub in
      (amount row n = None ↔ ∀ x, x ∈ xs → x = None)
      ∧ (∀ q, amount row n = Some q →
              omap id xs ≠ []
              ∧ q = (Qsum (omap id xs) / Qnat (length (omap id xs)))%Q).
Proof.
  intros Hk. eexists. split; [apply (macro_avg_row sub k Hk)|].
  split; [reflexivity|]. intros n; simpl.
  rewrite get_group_country_name. split.
  - apply mean_None.
  - apply mean_Some.
Qed.

Lemma all_null_group_has_null_mean_witness :
  ∃ row, row ∈ MacronutrientChart.macro_avg null_sugar_df
    ∧ Country row = "France"%string ∧
    ∀ n : Nutrient,
      let xs := source_column n
                  <$> filter (λ r, country_name r = "France"%string)
                        null_sugar_df in
      (amount row n = None ↔ ∀ x, x ∈ xs → x = None)
      ∧ (∀ q, amount row n = Some q →
              omap id xs ≠ []
              ∧ q = (Qsum (omap id xs) / Qnat (length (omap id xs)))%Q).
Proof.
  apply (all_null_group_has_null_mean null_sugar_df "France"%string).
  vm_compute. left.
Defined.

(** The end-to-end scenario: the sugar mean of the United States is
    (2 + 4) / 2, that of France is null, and France comes first. *)
Example scenario_macro_avg :
  (λ r, (Country r, amount r Sugars))
    <$> MacronutrientChart.macro_avg scenario_df
  = [("France"%string, None); ("United States"%string, Some (6 # 2)%Q)].
Proof. reflexivity. Qed.

(** ** Reshaping *)

Section Melt.
Context {R I Var V : Type} (id : R → I) (get : Var → R → V).
Implicit Types (frame : list R) (value_vars : list Var).

Lemma melt_cons frame v value_vars :
  melt id get frame (v :: value_vars)
  = ((λ r, (id r, v, get v r)) <$> frame) ++ melt id get frame value_vars.
Proof. reflexivity. Qed.

Lemma length_melt frame value_vars :
  length (melt id get frame value_vars)
  = (length value_vars * length frame)%nat.
Proof.
  induction value_vars as [|v value_vars IH]; [reflexivity|].
  rewrite melt_cons, length_app, length_fmap, IH. reflexivity.
Qed.

Lemma melt_lookup frame value_vars (i j : nat) (r : R) (v : Var) :
  frame !! i = Some r → value_vars !! j = Some v →
  melt id get frame value_vars !! (j * length frame + i)%nat
  = Some (id r, v, get v r).
Proof.
  intros Hi. revert j.
  induction value_vars as [|v' value_vars IH]; intros j Hj; [discriminate|].
  rewrite melt_cons. destruct j as [|j]; simpl in Hj.
  - injection Hj as ->. change (0 * length frame + i)%nat with i.
    rewrite lookup_app_l.
    + rewrite list_lookup_fmap, Hi. reflexivity.
    + rewrite length_fmap. now apply lookup_lt_Some in Hi.
  - rewrite lookup_app_r; rewrite length_fmap; [|simpl; lia].
    replace (S j * length frame + i - length frame)%nat
      with (j * length frame + i)%nat by (simpl; lia).
    now apply IH.
Qed.

Lemma elem_of_melt frame value_vars (t : I * Var * V) :
  t ∈ melt id get frame value_vars ↔
  ∃ r v, r ∈ frame ∧ v ∈ value_vars ∧ t = (id r, v, get v r).
Proof.
  unfold melt. rewrite list_elem_of_bind. split.
  - intros (v & (r & -> & Hr)%list_elem_of_fmap & Hv). eauto.
  - intros (r & v & Hr & Hv & ->). exists v. split; [|assumption].
    apply list_elem_of_fmap. eauto.
Qed.

End Melt.

Section MeltCount.
Context {R I Var V : Type} `{EqDecision Var} (id : R → I) (get : Var → R → V).
Implicit Types (frame : list R) (value_vars : list Var).

Lemma melt_block_all frame (v : Var) :
  filter (λ t : I * Var * V, t.1.2 = v) ((λ r, (id r, v, get v r)) <$> frame)
  = (λ r, (id r, v, get v r)) <$> frame.
Proof.
  induction frame as [|r frame IH]; [reflexivity|].
  rewrite fmap_cons, filter_cons_True by reflexivity. now rewrite IH.
Qed.

Lemma melt_block_none frame (v v' : Var) :
  v' ≠ v →
  filter (λ t : I * Var * V, t.1.2 = v) ((λ r, (id r, v', get v' r)) <$> frame)
  = [].
Proof.
  intros Hne. induction frame as [|r frame IH]; [reflexivity|].
  rewrite fmap_cons, filter_cons_False by exact Hne. exact IH.
Qed.

Lemma melt_other frame value_vars (v : Var) :
  v ∉ value_vars →
  filter (λ t : I * Var * V, t.1.2 = v) (melt id get frame value_vars) = [].
Proof.
  induction value_vars as [|v' value_vars IH]; intros Hv; [reflexivity|].
  apply not_elem_of_cons in Hv as [Hne Hv].
  rewrite melt_cons, filter_app, melt_block_none by congruence.
  now apply IH.
Qed.

(** Each listed column contributes one tidy row per row of the frame. *)
Lemma melt_count frame value_vars (v : Var) :
  NoDup value_vars → v ∈ value_vars →
  length (filter (λ t : I * Var * V, t.1.2 = v) (melt id get frame value_vars))
  = length frame.
Proof.
  induction value_vars as [|v' value_vars IH]; intros Hnd Hv.
  - now apply elem_of_nil in Hv.
  - apply NoDup_cons in Hnd as [Hv' Hnd].
    rewrite melt_cons, filter_app, length_app.
    destruct (decide (v' = v)) as [->|Hne].
    + rewrite melt_block_all, melt_other, length_fmap by assumption.
      simpl. lia.
    + rewrite melt_block_none by assumption.
      apply elem_of_cons in Hv as [->|Hv]; [contradiction|].
      now apply IH.
Qed.

End MeltCount.

(** C2, as stated, fails on the order: for the two aggregate rows of
    [null_sugar_df] and the metrics Fat, Sugars, the frame lists both
    countries for Fat and then both for Sugars, where reshaping row by row
    would list both metrics of France first. *)
Lemma melt_is_not_row_major :
  let frame := MacronutrientChart.macro_avg null_sugar_df in
  Country <$> frame = ["France"; "United States"]%string
  ∧ (melt Country (λ n r, amount r n) frame [Fat; Sugars]).*1
    = [("France", Fat); ("United States", Fat);
       ("France", Sugars); ("United States", Sugars)]%string
  ∧ (reshape_row_major Country (λ n r, amount r n) frame [Fat; Sugars]).*1
    = [("France", Fat); ("France", Sugars);
       ("United States", Fat); ("United States", Sugars)]%string
  ∧ melt Country (λ n r, amount r n) frame [Fat; Sugars]
    ≠ reshape_row_major Country (λ n r, amount r n) frame [Fat; Sugars].
Proof.
  repeat split. intros Heq.
  apply (f_equal (λ l, l.*1.*2 !! 1%nat)) in Heq. discriminate Heq.
Qed.

(** C2, amended.  For a metric list without repetition, the reshape step
    emits one tidy row per (aggregate row, metric) pair, a null value
    included, ordered first by the metric list and then by aggregate-row
    order: with [n] aggregate rows, the tidy row of the [i]-th aggregate
    row and the [j]-th metric is at position [j * n + i], each metric has
    [n] tidy rows, and there are [n] times the number of metrics in all.
    Both reshaping callbacks are instances of it. *)
Theorem melt_metric_major {R I Var W : Type} `{EqDecision Var}
    (id : R → I) (get : Var → R → option W)
    (frame : list R) (metrics : list Var) :
  NoDup metrics →
  let tidy := melt id get frame metrics in
  length tidy = (length frame * length metrics)%nat
  ∧ (∀ v, v ∈ metrics →
       length (filter (λ t, t.1.2 = v) tidy) = length frame)
  ∧ (∀ i j row v, frame !! i = Some row → metrics !! j = Some v →
       tidy !! (j * length frame + i)%nat = Some (id row, v, get v row))
  ∧ (∀ row v, row ∈ frame → v ∈ metrics → get v row = None →
       (id row, v, None) ∈ tidy)
  ∧ (∀ avg, MacronutrientChart.melted_df avg
            = melt Country (λ n r, amount r n) avg
                [Fat; Sugars; Proteins; Carbs; Salt])
  ∧ (∀ w, ProcessingByCountryChart.melted_df w
          = melt fst cell (rows w) (merge_sort kle (columns w))).
Proof.
  intros Hnd. simpl. split; [|split; [|split; [|split; [|split]]]].
  - rewrite length_melt. lia.
  - intros v Hv. now apply melt_count.
  - intros i j row v. apply (melt_lookup id get).
  - intros row v Hrow Hv Hnull. apply elem_of_melt.
    exists row, v. rewrite Hnull. auto.
  - reflexivity.
  - reflexivity.
Qed.

Lemma melt_metric_major_witness :
  melt Country (λ n r, amount r n)
    (MacronutrientChart.macro_avg null_sugar_df) [Fat; Sugars] !! 2%nat
  = Some ("France"%string, Sugars, None)
  ∧ ("France"%string, Sugars, None)
    ∈ melt Country (λ n r, amount r n)
        (MacronutrientChart.macro_avg null_sugar_df) [Fat; Sugars].
Proof.
  pose (france := {| Country := "France";
                     amount := λ n, mean (source_column n
                       <$> get_group (λ r, Some (country_name r))
                             null_sugar_df "France"%string) |}).
  assert (Hrow : france ∈ MacronutrientChart.macro_avg null_sugar_df).
  { apply macro_avg_row. vm_compute. left. }
  assert (Hnd : NoDup [Fat; Sugars]).
  { apply NoDup_cons. split; [|apply NoDup_singleton].
    intros [=]%list_elem_of_singleton. }
  pose proof (melt_metric_major Country (λ n r, amount r n)
                (MacronutrientChart.macro_avg null_sugar_df) [Fat; Sugars] Hnd)
    as (_ & _ & Hpos & Hnull & _).
  split.
  - exact (Hpos 0%nat 1%nat france Sugars eq_refl eq_refl).
  - exact (Hnull france Sugars Hrow (list_elem_of_further _ _ _
             (list_elem_of_here _ _)) eq_refl).
Defined.

(** ** Counts, the pivot table and the percentages *)

Lemma lookup_keyed {K V} `{Countable K} (f : K → V) (l : list K) (k : K) :
  (list_to_map ((λ k, (k, f k)) <$> l) : gmap K V) !! k
  = if decide (k ∈ l) then Some (f k) else None.
Proof.
  induction l as [|k' l IH].
  - apply lookup_empty.
  - rewrite fmap_cons, list_to_map_cons.
    destruct (decide (k' = k)) as [->|Hne].
    + rewrite lookup_insert_eq. rewrite decide_True; [reflexivity | left].
    + rewrite lookup_insert_ne, IH by assumption.
      destruct (decide (k ∈ l)) as [Hin|Hnin].
      * rewrite decide_True; [reflexivity | now right].
      * rewrite decide_False; [reflexivity|].
        intros [->|Hin]%elem_of_cons; contradiction.
Qed.

Section SizeFacts.
Context {R K : Type} `{Countable K} `{KeyOrd K}.
Implicit Types (key : R → option K) (frame : list R) (k : K).

Lemma get_group_nil key frame k :
  k ∉ group_keys key frame → get_group key frame k = [].
Proof.
  intros Hk. unfold get_group.
  induction frame as [|r frame IH]; [reflexivity|].
  rewrite filter_cons_False.
  - apply IH. intros (r' & Hr' & Hkey)%elem_of_group_keys. apply Hk.
    apply elem_of_group_keys. exists r'. split; [now right | assumption].
  - intros Hkey. apply Hk. apply elem_of_group_keys. exists r.
    split; [left | assumption].
Qed.

Lemma size_lookup key frame k :
  (list_to_map (size (groupby key frame)) : gmap K nat) !! k
  = if decide (k ∈ group_keys key frame)
    then Some (length (get_group key frame k)) else None.
Proof.
  rewrite size_groupby.
  apply (lookup_keyed (λ k, length (get_group key frame k))).
Qed.

End SizeFacts.

Lemma fmap_ext_elem_of {A B} (f g : A → B) (l : list A) :
  (∀ x, x ∈ l → f x = g x) → f <$> l = g <$> l.
Proof.
  intros Hfg. apply list_fmap_ext. intros i x Hx. apply Hfg.
  apply list_elem_of_lookup. eauto.
Qed.

Lemma pivot_counts (sub : DataFrame) :
  fillna 0 (unstack (ProcessingByCountryChart.nova_counts sub))
  = {| columns := pivot_columns sub;
       rows := (λ c, (c, (λ n, (n, Some (Qnat (length
                            (get_group nova_key sub (c, n))))))
                         <$> pivot_columns sub))
               <$> pivot_index sub |}.
Proof.
  unfold fillna, unstack, ProcessingByCountryChart.nova_counts.
  unfold pivot_index, pivot_columns; simpl.
  rewrite size_keys. f_equal.
  rewrite <- list_fmap_compose. apply fmap_ext_elem_of. intros c _; simpl.
  f_equal. rewrite <- list_fmap_compose. apply fmap_ext_elem_of.
  intros n _; simpl. do 2 f_equal.
  rewrite size_lookup. case_decide as Hin; [reflexivity|].
  now rewrite get_group_nil.
Qed.

Lemma set_column_columns f (w : Wide) (cols : list Z) :
  columns (foldl (set_column f) w cols) = columns w.
Proof.
  revert w. induction cols as [|col cols IH]; intros w; [reflexivity|].
  simpl. now rewrite IH.
Qed.

(** The loop over the columns rewrites every cell of a listed column once. *)
Lemma set_column_loop f (w : Wide) (cols : list Z) :
  NoDup cols →
  rows (foldl (set_column f) w cols)
  = (λ row : WideRow,
       (row.1, (λ c : Cell, if decide (c.1 ∈ cols)
                            then (c.1, f row.1 c.2) else c) <$> row.2))
    <$> rows w.
Proof.
  revert w. induction cols as [|col cols IH]; intros w Hnd.
  - cbn [foldl]. rewrite <- (list_fmap_id (rows w)) at 1.
    apply fmap_ext_elem_of. intros [c cells] _; cbn [fst snd id]. f_equal.
    rewrite <- (list_fmap_id cells) at 1.
    apply fmap_ext_elem_of. intros [n x] _; cbn [fst snd id].
    rewrite decide_False; [reflexivity | apply not_elem_of_nil].
  - apply NoDup_cons in Hnd as [Hcol Hnd]. cbn [foldl].
    rewrite IH by assumption. cbn [set_column rows].
    rewrite <- list_fmap_compose.
    apply fmap_ext_elem_of. intros [c cells] _; cbn [fst snd compose]. f_equal.
    rewrite <- list_fmap_compose.
    apply fmap_ext_elem_of. intros [n x] _; cbn [fst snd compose].
    destruct (decide (n = col)) as [->|Hne]; cbn [fst snd].
    + rewrite decide_False by assumption.
      rewrite decide_True; [reflexivity | left].
    + destruct (decide (n ∈ cols)) as [Hin|Hnin].
      * rewrite decide_True; [reflexivity | now right].
      * rewrite decide_False; [reflexivity|].
        intros [->|Hin]%elem_of_cons; contradiction.
Qed.

Lemma NoDup_pivot_columns (sub : DataFrame) : NoDup (pivot_columns sub).
Proof.
  unfold pivot_columns. rewrite merge_sort_Permutation. apply NoDup_remove_dups.
Qed.

Lemma elem_of_pivot_columns (sub : DataFrame) (n : Z) :
  n ∈ pivot_columns sub ↔ ∃ r, r ∈ sub ∧ nova_group r = Some n.
Proof.
  unfold pivot_columns.
  rewrite merge_sort_Permutation, elem_of_remove_dups, list_elem_of_fmap.
  split.
  - intros ([c n'] & -> & (r & Hr & Hkey)%elem_of_group_keys).
    exists r. split; [assumption|]. unfold nova_key in Hkey.
    destruct (nova_group r); simpl in *; congruence.
  - intros (r & Hr & Hn). exists (country_name r, n). split; [reflexivity|].
    apply elem_of_group_keys. exists r. split; [assumption|].
    unfold nova_key. now rewrite Hn.
Qed.

Lemma elem_of_pivot_index (sub : DataFrame) (c : string) :
  c ∈ pivot_index sub ↔
  ∃ r, r ∈ sub ∧ country_name r = c ∧ is_Some (nova_group r).
Proof.
  unfold pivot_index.
  rewrite merge_sort_Permutation, elem_of_remove_dups, list_elem_of_fmap.
  split.
  - intros ([c' n] & -> & (r & Hr & Hkey)%elem_of_group_keys).
    exists r. split; [assumption|]. unfold nova_key in Hkey.
    destruct (nova_group r); simpl in Hkey; [|discriminate].
    injection Hkey as <- <-. eauto.
  - intros (r & Hr & <- & n & Hn). exists (country_name r, n).
    split; [reflexivity|].
    apply elem_of_group_keys. exists r. split; [assumption|].
    unfold nova_key. now rewrite Hn.
Qed.

Lemma nova_by_country_columns (sub : DataFrame) :
  columns (ProcessingByCountryChart.nova_by_country sub) = pivot_columns sub.
Proof.
  unfold ProcessingByCountryChart.nova_by_country. cbn zeta.
  rewrite set_column_columns, pivot_counts. reflexivity.
Qed.

Lemma nova_by_country_rows (sub : DataFrame) :
  rows (ProcessingByCountryChart.nova_by_country sub)
  = (λ c, (c, (λ n, (n, percent_of
                         (list_to_map
                            (ProcessingByCountryChart.country_totals sub)) c
                         (Some (Qnat (length
                                  (get_group nova_key sub (c, n)))))))
              <$> pivot_columns sub))
    <$> pivot_index sub.
Proof.
  unfold ProcessingByCountryChart.nova_by_country. cbn zeta.
  rewrite pivot_counts. cbn [columns].
  rewrite set_column_loop by apply NoDup_pivot_columns. cbn [rows].
  rewrite <- list_fmap_compose.
  apply fmap_ext_elem_of. intros c _; cbn [fst snd compose]. f_equal.
  rewrite <- list_fmap_compose.
  apply fmap_ext_elem_of. intros n Hn; cbn [fst snd compose].
  now rewrite decide_True.
Qed.

Lemma get_group_nova_key (sub : DataFrame) (c : string) (n : Z) :
  length (get_group nova_key sub (c, n)) = nova_count sub c n.
Proof.
  unfold get_group, nova_count. f_equal. apply list_filter_iff. intros r.
  unfold nova_key. destruct (nova_group r) as [m|]; simpl.
  - split; [intros [= <- <-] | intros [<- [= <-]]]; auto.
  - split; [discriminate | intros [_ [=]]].
Qed.

Lemma country_totals_lookup (sub : DataFrame) (c : string) :
  c ∈ pivot_index sub →
  (list_to_map (ProcessingByCountryChart.country_totals sub)
     : gmap string nat) !! c = Some (country_total sub c).
Proof.
  intros (r & Hr & Hc & _)%elem_of_pivot_index.
  unfold ProcessingByCountryChart.country_totals. rewrite size_lookup.
  rewrite decide_True.
  - rewrite get_group_country_name. reflexivity.
  - apply elem_of_group_keys. exists r.
    split; [assumption | simpl; congruence].
Qed.

Lemma nova_count_le_total (sub : DataFrame) (c : string) (n : Z) :
  (nova_count sub c n ≤ country_total sub c)%nat.
Proof.
  unfold nova_count, country_total.
  induction sub as [|r sub IH]; [reflexivity|].
  rewrite !filter_cons. repeat case_decide; simpl; try lia. tauto.
Qed.

Lemma country_total_pos (sub : DataFrame) (c : string) :
  c ∈ pivot_index sub → (0 < country_total sub c)%nat.
Proof.
  intros (r & Hr & Hc & _)%elem_of_pivot_index. unfold country_total.
  assert (Hin : r ∈ filter (λ r, country_name r = c) sub).
  { apply list_elem_of_filter. auto. }
  destruct (filter (λ r, country_name r = c) sub); simpl; [|lia].
  now apply elem_of_nil in Hin.
Qed.

Lemma Qnat_le (a b : nat) : (a ≤ b)%nat → (Qnat a <= Qnat b)%Q.
Proof. intros Hab. unfold Qnat. rewrite <- Zle_Qle. lia. Qed.

Lemma Qnat_pos (b : nat) : (0 < b)%nat → (0 < Qnat b)%Q.
Proof.
  intros Hb. unfold Qnat. change 0%Q with (inject_Z 0).
  rewrite <- Zlt_Qlt. lia.
Qed.

Lemma percent_bounds (a b : nat) :
  (a ≤ b)%nat → (0 < b)%nat → (0 <= Qnat a / Qnat b * 100 <= 100)%Q.
Proof.
  intros Hab Hb. pose proof (Qnat_pos b Hb) as Hpos.
  pose proof (Qnat_le 0 a ltac:(lia)) as Ha. pose proof (Qnat_le a b Hab) as Hle.
  split.
  - apply Qmult_le_0_compat; [|discriminate].
    apply Qle_shift_div_l; [assumption|]. now rewrite Qmult_0_l.
  - apply (Qle_trans _ (1 * 100)%Q); [|unfold Qle; simpl; lia].
    apply Qmult_le_compat_r; [|discriminate].
    apply Qle_shift_div_r; [assumption|]. now rewrite Qmult_1_l.
Qed.

Lemma percent_zero (b : nat) : (Qnat 0 / Qnat b * 100 == 0)%Q.
Proof. unfold Qdiv. change (Qnat 0) with 0%Q. now rewrite !Qmult_0_l. Qed.

Lemma elem_of_tidy (sub : DataFrame) (t : string * Z * option Q) :
  t ∈ ProcessingByCountryChart.melted_df
        (ProcessingByCountryChart.nova_by_country sub) ↔
  ∃ c n, c ∈ pivot_index sub ∧ n ∈ pivot_columns sub
         ∧ t = (c, n, Some (percentage sub c n)).
Proof.
  unfold ProcessingByCountryChart.melted_df.
  rewrite elem_of_melt, nova_by_country_rows, nova_by_country_columns.
  assert (Hcell : ∀ c n, c ∈ pivot_index sub → n ∈ pivot_columns sub →
    cell n (c, (λ n, (n, percent_of
                 (list_to_map (ProcessingByCountryChart.country_totals sub)) c
                 (Some (Qnat (length (get_group nova_key sub (c, n)))))))
               <$> pivot_columns sub)
    = Some (percentage sub c n)).
  { intros c n Hc Hn. unfold cell; cbn [snd].
    rewrite (lookup_keyed (λ n, percent_of
               (list_to_map (ProcessingByCountryChart.country_totals sub)) c
               (Some (Qnat (length (get_group nova_key sub (c, n))))))).
    rewrite decide_True by assumption. cbn [default]. unfold percent_of.
    rewrite country_totals_lookup by assumption.
    now rewrite get_group_nova_key. }
  split.
  - intros (row & n & (c & -> & Hc)%list_elem_of_fmap & Hn & ->).
    rewrite merge_sort_Permutation in Hn.
    exists c, n. rewrite Hcell by assumption. auto.
  - intros (c & n & Hc & Hn & ->). eexists _, n.
    split; [apply list_elem_of_fmap; eauto|].
    split; [now rewrite merge_sort_Permutation|].
    rewrite Hcell by assumption. reflexivity.
Qed.

(** C4, as stated, fails on the example of the spec taken alone: Germany
    with two rows in NOVA group 1 and one in group 3 has no row in groups 2
    and 4, yet the table gives these two groups no entry at all, neither
    zero nor null, since no country of the subset has a row in them. *)
Lemma unobserved_subgroup_not_filled :
  let tidy :=
    (ProcessingByCountryChart.update_processing_by_country_chart
       ["de"]%string ["A"]%string german_df).1 in
  nova_count german_df "Germany" 2 = 0%nat
  ∧ nova_count german_df "Germany" 4 = 0%nat
  ∧ tidy.*1 = [("Germany", 1); ("Germany", 3)]%string
  ∧ (∀ p, ("Germany"%string, 2, p) ∉ tidy)
  ∧ (∀ p, ("Germany"%string, 4, p) ∉ tidy).
Proof.
  cbn zeta.
  assert (Hkeys : (ProcessingByCountryChart.update_processing_by_country_chart
                     ["de"]%string ["A"]%string german_df).1.*1
                  = [("Germany", 1); ("Germany", 3)]%string) by reflexivity.
  repeat split; try assumption.
  - intros p Hin. apply (list_elem_of_fmap_2 fst) in Hin.
    rewrite Hkeys in Hin. simpl in Hin.
    apply elem_of_cons in Hin as [[=]|Hin].
    apply elem_of_cons in Hin as [[=]|Hin]. now apply elem_of_nil in Hin.
  - intros p Hin. apply (list_elem_of_fmap_2 fst) in Hin.
    rewrite Hkeys in Hin. simpl in Hin.
    apply elem_of_cons in Hin as [[=]|Hin].
    apply elem_of_cons in Hin as [[=]|Hin]. now apply elem_of_nil in Hin.
Qed.

(** With France in the subset, whose rows cover groups 2 and 4, the same
    three rows of Germany give 200/3, 0, 100/3 and 0 percent. *)
Example percentages_of_nova_df :
  (ProcessingByCountryChart.update_processing_by_country_chart
     ["de"; "fr"]%string ["A"]%string nova_df).1
  = [ ("France", 1, Some (0 # 3)%Q); ("Germany", 1, Some (200 # 3)%Q);
      ("France", 2, Some (100 # 3)%Q); ("Germany", 2, Some (0 # 3)%Q);
      ("France", 3, Some (0 # 3)%Q); ("Germany", 3, Some (100 # 3)%Q);
      ("France", 4, Some (100 # 3)%Q); ("Germany", 4, Some (0 # 3)%Q) ]%string.
Proof. reflexivity. Qed.

(** C4, amended.  In the percentage-by-group derivation every tidy row
    carries, for its country and NOVA group, the number of rows of the
    country in that group divided by the number of rows of the country,
    times 100: a value within [0, 100], never null.  The tidy rows are
    exactly the pairs of a country that has a row with a NOVA group and a
    NOVA group that occurs in the subset: every such pair has its row, with
    the value zero where the country has no row in the group, and no other
    pair has one.  So a NOVA group that no row of the subset is in gets no
    row at all, and neither does a country none of whose rows has a NOVA
    group. *)
Theorem percentages_bounded_and_zero_filled
    (df : DataFrame) (cs gs : list string) :
  let sub := ProcessingByCountryChart.filtered_df df cs gs in
  let tidy :=
    (ProcessingByCountryChart.update_processing_by_country_chart cs gs df).1 in
  (∀ c n p, (c, n, p) ∈ tidy →
     (∃ r, r ∈ sub ∧ country_name r = c ∧ is_Some (nova_group r))
     ∧ (∃ r, r ∈ sub ∧ nova_group r = Some n)
     ∧ (0 < country_total sub c)%nat
     ∧ p = Some (percentage sub c n)
     ∧ (0 <= percentage sub c n <= 100)%Q)
  ∧ (∀ c n,
       (∃ r, r ∈ sub ∧ country_name r = c ∧ is_Some (nova_group r)) →
       (∃ r, r ∈ sub ∧ nova_group r = Some n) →
       (c, n, Some (percentage sub c n)) ∈ tidy
       ∧ (nova_count sub c n = 0%nat → (percentage sub c n == 0)%Q))
  ∧ (∀ n, (∀ r, r ∈ sub → nova_group r ≠ Some n) →
          ∀ c p, (c, n, p) ∉ tidy)
  ∧ (∀ c, (∀ r, r ∈ sub → country_name r = c → nova_group r = None) →
          ∀ n p, (c, n, p) ∉ tidy).
Proof.
  cbn zeta. unfold ProcessingByCountryChart.update_processing_by_country_chart.
  cbn [fst]. set (sub := ProcessingByCountryChart.filtered_df df cs gs).
  split; [|split; [|split]].
  - intros c n p (c' & n' & Hc & Hn & [= -> -> ->])%elem_of_tidy.
    pose proof (country_total_pos sub c' Hc) as Hpos.
    split; [now apply elem_of_pivot_index|].
    split; [now apply elem_of_pivot_columns|].
    split; [assumption|]. split; [reflexivity|].
    apply percent_bounds; [apply nova_count_le_total | assumption].
  - intros c n Hc%elem_of_pivot_index Hn%elem_of_pivot_columns. split.
    + apply elem_of_tidy. eauto.
    + intros Hzero. unfold percentage. rewrite Hzero. apply percent_zero.
  - intros n Hnone c p (c' & n' & _ & Hn & [= -> -> ->])%elem_of_tidy.
    apply elem_of_pivot_columns in Hn as (r & Hr & Hnova).
    exact (Hnone r Hr Hnova).
  - intros c Hnone n p (c' & n' & Hc & _ & [= -> -> ->])%elem_of_tidy.
    apply elem_of_pivot_index in Hc as (r & Hr & Hname & Hnova).
    rewrite (Hnone r Hr Hname) in Hnova. now apply is_Some_None in Hnova.
Qed.

Lemma percentages_bounded_and_zero_filled_witness :
  let tidy :=
    (ProcessingByCountryChart.update_processing_by_country_chart
       ["de"; "fr"]%string ["A"]%string nova_df).1 in
  ((∃ r, r ∈ nova_df ∧ country_name r = "Germany"%string
         ∧ is_Some (nova_group r))
   ∧ (∃ r, r ∈ nova_df ∧ nova_group r = Some 2)
   ∧ (0 < country_total nova_df "Germany")%nat
   ∧ Some (percentage nova_df "Germany" 2) = Some (percentage nova_df "Germany" 2)
   ∧ (0 <= percentage nova_df "Germany" 2 <= 100)%Q)
  ∧ ("Germany"%string, 2, Some (percentage nova_df "Germany" 2)) ∈ tidy
  ∧ (percentage nova_df "Germany" 2 == 0)%Q
  ∧ (∀ c p, (c, 5, p) ∉ tidy).
Proof.
  pose proof (percentages_bounded_and_zero_filled
                nova_df ["de"; "fr"]%string ["A"]%string)
    as (Hrow & Hfill & Hgroup & _).
  assert (Hde : ∃ r, r ∈ nova_df ∧ country_name r = "Germany"%string
                     ∧ is_Some (nova_group r)).
  { exists (mk_nova "de" (Some 1)). split; [left|].
    split; [reflexivity | eexists; reflexivity]. }
  assert (Hn : ∃ r, r ∈ nova_df ∧ nova_group r = Some 2).
  { exists (mk_nova "fr" (Some 2)). split; [right; left | reflexivity]. }
  destruct (Hfill "Germany"%string 2 Hde Hn) as [Hin Hzero].
  split; [|split; [|split]].
  - exact (Hrow "Germany"%string 2 _ Hin).
  - exact Hin.
  - exact (Hzero eq_refl).
  - apply (Hgroup 5). intros r Hr.
    repeat (apply elem_of_cons in Hr as [->|Hr]; [discriminate|]).
    now apply elem_of_nil in Hr.
Defined.

(** * Further properties of the callbacks *)

(** ** Group sizes *)

Section GroupSizes.
Context {R K : Type} `{EqDecision K}.
Implicit Types (key : R → option K) (frame : list R) (ks : list K).

Lemma sum_list_with_zero (f : K → nat) ks :
  (∀ k, k ∈ ks → f k = 0%nat) → sum_list_with f ks = 0%nat.
Proof.
  induction ks as [|k ks IH]; intros Hf; [reflexivity|]. simpl.
  rewrite Hf by left. rewrite IH; [reflexivity|].
  intros k' Hk'. apply Hf. now right.
Qed.

Lemma sum_list_with_plus (f g : K → nat) ks :
  sum_list_with (λ k, f k + g k)%nat ks
  = (sum_list_with f ks + sum_list_with g ks)%nat.
Proof. induction ks as [|k ks IH]; simpl; [reflexivity | lia]. Qed.

Lemma sum_list_with_ext (f g : K → nat) ks :
  (∀ k, f k = g k) → sum_list_with f ks = sum_list_with g ks.
Proof. intros Hfg. induction ks as [|k ks IH]; simpl; congruence. Qed.

Lemma sum_indicator ks (k0 : K) :
  NoDup ks → k0 ∈ ks →
  sum_list_with (λ k, if decide (k = k0) then 1 else 0)%nat ks = 1%nat.
Proof.
  induction ks as [|k ks IH]; intros Hnd Hin.
  - now apply elem_of_nil in Hin.
  - apply NoDup_cons in Hnd as [Hk Hnd]. simpl. case_decide as Heq.
    + subst k. rewrite sum_list_with_zero; [reflexivity|].
      intros k' Hk'. rewrite decide_False; [reflexivity|]. congruence.
    + apply elem_of_cons in Hin as [->|Hin]; [contradiction|].
      now rewrite IH.
Qed.

(** The groups of the keys of [ks] split the rows that have a key. *)
Lemma group_lengths_sum key frame ks :
  NoDup ks →
  (∀ r k, r ∈ frame → key r = Some k → k ∈ ks) →
  sum_list_with (λ k, length (filter (λ r, key r = Some k) frame)) ks
  = length (filter (λ r, is_Some (key r)) frame).
Proof.
  intros Hnd. induction frame as [|r frame IH]; intros Hks.
  - apply sum_list_with_zero. reflexivity.
  - assert (IH' := IH (λ r' k Hr', Hks r' k (list_elem_of_further _ _ _ Hr'))).
    destruct (key r) as [k0|] eqn:Hkey.
    + rewrite (filter_cons_True (λ r, is_Some (key r))) by (rewrite Hkey; eauto).
      cbn [length]. rewrite <- IH', <- Nat.add_1_l.
      rewrite <- (sum_indicator ks k0 Hnd
                    (Hks r k0 (list_elem_of_here _ _) Hkey)) at 1.
      rewrite <- sum_list_with_plus. apply sum_list_with_ext. intros k.
      rewrite filter_cons, Hkey. case_decide as H1; case_decide as H2;
        simpl; congruence.
    + rewrite (filter_cons_False (λ r, is_Some (key r)))
        by (rewrite Hkey; intros [? [=]]).
      rewrite <- IH'. apply sum_list_with_ext. intros k.
      rewrite filter_cons_False; [reflexivity | congruence].
Qed.

End GroupSizes.

Section SizeOfGroups.
Context {R K : Type} `{EqDecision K} `{KeyOrd K}.
Implicit Types (key : R → option K) (frame : list R).

Lemma elem_of_size key frame (k : K) (n : nat) :
  (k, n) ∈ size (groupby key frame) ↔
  (0 < n)%nat ∧ n = length (get_group key frame k).
Proof.
  rewrite size_groupby, list_elem_of_fmap. split.
  - intros (k' & [= <- ->] & (r & Hr & Hkey)%elem_of_group_keys).
    split; [|reflexivity].
    assert (Hin : r ∈ get_group key frame k).
    { unfold get_group. apply list_elem_of_filter. auto. }
    destruct (get_group key frame k); [now apply elem_of_nil in Hin|].
    simpl. lia.
  - intros [Hpos ->]. exists k. split; [reflexivity|].
    destruct (get_group key frame k) as [|r g] eqn:Hg; [simpl in Hpos; lia|].
    assert (Hin : r ∈ get_group key frame k) by (rewrite Hg; left).
    unfold get_group in Hin. apply list_elem_of_filter in Hin as [Hkey Hr].
    apply elem_of_group_keys. eauto.
Qed.

Lemma sum_list_fmap_with {A} (f : A → nat) (l : list A) :
  sum_list (f <$> l) = sum_list_with f l.
Proof. induction l as [|a l IH]; simpl; [reflexivity | now rewrite <- IH]. Qed.

Lemma size_sum key frame :
  sum_list (size (groupby key frame)).*2
  = length (filter (λ r, is_Some (key r)) frame).
Proof.
  rewrite size_groupby, <- list_fmap_compose, sum_list_fmap_with.
  apply (group_lengths_sum key frame (group_keys key frame)).
  - apply NoDup_group_keys.
  - intros r k Hr Hkey. apply elem_of_group_keys. eauto.
Qed.

End SizeOfGroups.


(** X1. Every count of the grade chart and of the NOVA chart is the number
    of rows of the filtered subset with that country name and that grade,
    resp. NOVA group, and is at least one: a pair without rows gets no
    entry, and a pair with rows gets exactly this one.  The description of
    an entry of the NOVA chart is that of its group. *)
Theorem group_counts_exact (df sub : DataFrame) (cs gs : list string) :
  (∀ c g k, (c, g, k) ∈ NutritionGradeChart.grade_counts sub ↔
     (0 < k)%nat
     ∧ k = length (filter (λ r, country_name r = c
                                ∧ nutrition_grade r = Some g) sub))
  ∧ (∀ c n k d,
       (c, n, k, d) ∈ (NovaGroupChart.update_nova_group_chart cs gs df).1 ↔
       (0 < k)%nat
       ∧ k = nova_count (NovaGroupChart.filtered_df df cs gs) c n
       ∧ d = NovaGroupChart.description n).
Proof.
  split.
  - intros c g k. unfold NutritionGradeChart.grade_counts.
    rewrite (elem_of_size _ sub (c, g) k).
    assert (Hlen : length (get_group
                     (λ r, pair (country_name r) <$> nutrition_grade r)
                     sub (c, g))
                   = length (filter (λ r, country_name r = c
                                          ∧ nutrition_grade r = Some g) sub)).
    { unfold get_group. f_equal. apply list_filter_iff. intros r.
      destruct (nutrition_grade r) as [g'|]; simpl.
      - split; [intros [= <- <-] | intros [<- [= <-]]]; auto.
      - split; [discriminate | intros [_ [=]]]. }
    rewrite Hlen. reflexivity.
  - intros c n k d. cbn [fst NovaGroupChart.update_nova_group_chart].
    unfold NovaGroupChart.nova_counts. rewrite list_elem_of_fmap. split.
    + intros ([[c' n'] k'] & [= <- <- <- ->] & Hin).
      apply (elem_of_size nova_key _ (c, n) k) in Hin as [Hpos ->].
      rewrite get_group_nova_key in *. auto.
    + intros (Hpos & -> & ->).
      exists (c, n, nova_count (NovaGroupChart.filtered_df df cs gs) c n).
      split; [reflexivity|].
      apply (elem_of_size nova_key _ (c, n)).
      rewrite get_group_nova_key. auto.
Qed.

(** X2. The counts of a chart add up to the number of rows that have a
    value in the grouped column: the grade counts to the rows with a grade,
    the NOVA counts to the rows with a NOVA group, the country totals to
    all the rows.  No row is counted twice and only the rows without a key
    are left out. *)
Theorem group_counts_add_up (sub : DataFrame) :
  sum_list (NutritionGradeChart.grade_counts sub).*2
  = length (filter (λ r, is_Some (nutrition_grade r)) sub)
  ∧ sum_list ((λ e : string * Z * nat * string, e.1.2)
              <$> NovaGroupChart.nova_counts sub)
    = length (filter (λ r, is_Some (nova_group r)) sub)
  ∧ sum_list (ProcessingByCountryChart.nova_counts sub).*2
    = length (filter (λ r, is_Some (nova_group r)) sub)
  ∧ sum_list (ProcessingByCountryChart.country_totals sub).*2 = length sub.
Proof.
  assert (Hnova : sum_list (size (groupby nova_key sub)).*2
                  = length (filter (λ r, is_Some (nova_group r)) sub)).
  { rewrite size_sum. f_equal. apply list_filter_iff. intros r.
    unfold nova_key. rewrite fmap_is_Some. reflexivity. }
  split; [|split; [|split]].
  - unfold NutritionGradeChart.grade_counts. rewrite size_sum. f_equal.
    apply list_filter_iff. intros r. rewrite fmap_is_Some. reflexivity.
  - unfold NovaGroupChart.nova_counts. rewrite <- list_fmap_compose.
    exact Hnova.
  - exact Hnova.
  - unfold ProcessingByCountryChart.country_totals. rewrite size_sum.
    f_equal. clear Hnova. induction sub as [|r sub IH]; [reflexivity|].
    rewrite filter_cons_True by (eexists; reflexivity). now rewrite IH.
Qed.


(** ** The counts behind the percentages of a country *)

Lemma length_filter_le_imp {A} (P Q : A → Prop)
    `{!∀ x, Decision (P x), !∀ x, Decision (Q x)} (l : list A) :
  (∀ x, P x → Q x) → (length (filter P l) ≤ length (filter Q l))%nat.
Proof.
  intros HPQ. rewrite <- (list_filter_filter_l P Q) by assumption.
  apply length_filter.
Qed.

Lemma length_filter_eq_imp {A} (P Q : A → Prop)
    `{!∀ x, Decision (P x), !∀ x, Decision (Q x)} (l : list A) :
  (∀ x, P x → Q x) →
  length (filter P l) = length (filter Q l) ↔ ∀ x, x ∈ l → Q x → P x.
Proof.
  intros HPQ. induction l as [|a l IH].
  - split; [|reflexivity]. intros _ x Hx. now apply elem_of_nil in Hx.
  - pose proof (length_filter_le_imp P Q l HPQ) as Hle.
    rewrite !filter_cons.
    destruct (decide (P a)) as [HP|HP], (decide (Q a)) as [HQ|HQ];
      cbn [length].
    + split.
      * intros Hlen x [->|Hx]%elem_of_cons; [auto|].
        apply IH; [lia | assumption].
      * intros Hall. f_equal. apply IH. intros x Hx. apply Hall. now right.
    + destruct HQ. auto.
    + split; [lia|]. intros Hall. destruct HP. apply Hall; [left | assumption].
    + split.
      * intros Hlen x [->|Hx]%elem_of_cons; [contradiction|].
        now apply IH.
      * intros Hall. apply IH. intros x Hx. apply Hall. now right.
Qed.

Lemma sum_list_with_keyed {A B} (f : A * B → nat) (g : A → B) (ks : list A) :
  sum_list_with f ((λ k, (k, g k)) <$> ks)
  = sum_list_with (λ k, f (k, g k)) ks.
Proof.
  induction ks as [|k ks IH]; [reflexivity|].
  rewrite fmap_cons. cbn [sum_list_with]. now rewrite IH.
Qed.

Lemma nova_counts_of_country (sub : DataFrame) (c : string) :
  sum_list_with (λ e : string * Z * nat,
                   if decide (e.1.1 = c) then e.2 else 0%nat)
    (ProcessingByCountryChart.nova_counts sub)
  = length (filter (λ r, country_name r = c ∧ is_Some (nova_group r)) sub).
Proof.
  unfold ProcessingByCountryChart.nova_counts.
  rewrite size_groupby.
  rewrite (sum_list_with_keyed _ (λ k, length (get_group nova_key sub k))).
  cbn [fst snd].
  transitivity
    (length (filter (λ r, is_Some (nova_key r))
               (filter (λ r, country_name r = c) sub))).
  - rewrite <- (group_lengths_sum nova_key
                  (filter (λ r, country_name r = c) sub)
                  (group_keys nova_key sub)).
    + apply sum_list_with_ext. intros [c' n]. cbn [fst].
      rewrite list_filter_filter. case_decide as Hc.
      * subst c'. unfold get_group. f_equal. apply list_filter_iff.
        intros r. split; [|tauto]. intros Hkey. split; [assumption|].
        unfold nova_key in Hkey.
        destruct (nova_group r); simpl in Hkey; congruence.
      * destruct (filter _ sub) as [|r rest] eqn:Hnone; [reflexivity|].
        assert (Hr : r ∈ r :: rest) by left. rewrite <- Hnone in Hr.
        apply list_elem_of_filter in Hr as [[Hkey Hname] _].
        unfold nova_key in Hkey.
        destruct (nova_group r); simpl in Hkey; congruence.
    + apply NoDup_group_keys.
    + intros r k [_ Hr]%list_elem_of_filter Hkey.
      apply elem_of_group_keys. eauto.
  - f_equal. rewrite list_filter_filter. apply list_filter_iff. intros r.
    unfold nova_key. rewrite fmap_is_Some. tauto.
Qed.

(** X4. For every country, the counts per NOVA group from which the
    percentage chart is computed add up to the number of rows of the
    country that have a NOVA group, while the country total they are
    divided by is the number of all the rows of the country.  The counts
    add up to the total exactly when every row of the country has a NOVA
    group, and stay below it otherwise. *)
Theorem country_counts_against_total (sub : DataFrame) (c : string) :
  let with_nova :=
    length (filter (λ r, country_name r = c ∧ is_Some (nova_group r)) sub) in
  sum_list_with (λ e : string * Z * nat,
                   if decide (e.1.1 = c) then e.2 else 0%nat)
    (ProcessingByCountryChart.nova_counts sub)
  = with_nova
  ∧ (∀ t, (c, t) ∈ ProcessingByCountryChart.country_totals sub ↔
          (0 < t)%nat ∧ t = country_total sub c)
  ∧ (with_nova ≤ country_total sub c)%nat
  ∧ (with_nova = country_total sub c ↔
     ∀ r, r ∈ sub → country_name r = c → is_Some (nova_group r)).
Proof.
  cbn zeta. split; [apply nova_counts_of_country|]. split; [|split].
  - intros t. unfold ProcessingByCountryChart.country_totals.
    rewrite (elem_of_size _ sub c t), get_group_country_name.
    reflexivity.
  - unfold country_total. apply length_filter_le_imp. tauto.
  - unfold country_total.
    rewrite (length_filter_eq_imp
               (λ r, country_name r = c ∧ is_Some (nova_group r))
               (λ r, country_name r = c)) by tauto.
    split.
    + intros Hall r Hr Hname. now apply Hall.
    + intros Hall r Hr Hname. auto.
Qed.


(** ** The radar chart *)

Lemma traverse_fmap {A B C} (h : A → B) (f : B → result C) (l : list A) :
  traverse f (h <$> l) = traverse (λ a, f (h a)) l.
Proof.
  induction l as [|a l IH]; [reflexivity|].
  rewrite fmap_cons. cbn [traverse]. now rewrite IH.
Qed.

Lemma traverse_Ok {A B} (f : A → result B) (g : A → B) (l : list A) :
  (∀ a, a ∈ l → f a = Ok (g a)) → traverse f l = Ok (g <$> l).
Proof.
  induction l as [|a l IH]; intros Hf; [reflexivity|].
  cbn [traverse]. rewrite (Hf a) by left.
  rewrite IH by (intros a' Ha'; apply Hf; now right). reflexivity.
Qed.

Lemma filter_nil_elem_of {A} (P : A → Prop) `{!∀ x, Decision (P x)}
    (l : list A) :
  (∀ x, x ∈ l → ¬ P x) → filter P l = [].
Proof.
  induction l as [|a l IH]; intros HP; [reflexivity|].
  rewrite filter_cons_False by (apply HP; left).
  apply IH. intros x Hx. apply HP. now right.
Qed.

Lemma filter_unique {A B} `{EqDecision B} (f : A → B) (l : list A) (a : A) :
  NoDup (f <$> l) → a ∈ l → filter (λ a', f a' = f a) l = [a].
Proof.
  induction l as [|a' l IH]; intros Hnd Ha.
  - now apply elem_of_nil in Ha.
  - rewrite fmap_cons in Hnd. apply NoDup_cons in Hnd as [Hnin Hnd].
    apply elem_of_cons in Ha as [->|Ha].
    + rewrite filter_cons_True by reflexivity. f_equal.
      apply filter_nil_elem_of. intros x Hx Heq. apply Hnin.
      rewrite <- Heq. now apply list_elem_of_fmap_2.
    + rewrite filter_cons_False.
      * now apply IH.
      * intros Heq. apply Hnin. rewrite Heq. now apply list_elem_of_fmap_2.
Qed.

Lemma radar_data_countries (filtered : list Product) :
  RadarChart.Country <$> RadarChart.radar_data filtered
  = group_keys (λ p : Product, Some (country_name p)) filtered.
Proof.
  unfold RadarChart.radar_data. rewrite <- list_fmap_compose.
  apply groupby_keys.
Qed.

Lemma radar_trace_of_row (data : list RadarChart.RadarRow)
    (row : RadarChart.RadarRow) :
  NoDup (RadarChart.Country <$> data) → row ∈ data →
  RadarChart.trace data (RadarChart.Country row) = Ok (closed_trace row).
Proof.
  intros Hnd Hrow. unfold RadarChart.trace.
  rewrite (filter_unique RadarChart.Country data row Hnd Hrow).
  reflexivity.
Qed.

Lemma radar_traces (filtered : list Product) :
  traverse (RadarChart.trace (RadarChart.radar_data filtered))
    (RadarChart.Country <$> RadarChart.radar_data filtered)
  = Ok (closed_trace <$> RadarChart.radar_data filtered).
Proof.
  rewrite traverse_fmap. apply traverse_Ok. intros row Hrow.
  apply radar_trace_of_row; [|assumption].
  rewrite radar_data_countries. apply NoDup_group_keys.
Qed.

(** X5. With a range of two bounds that a double holds exactly, the loop
    of the radar chart does not raise: the selection of the rows of a
    country out of [radar_data] always finds exactly one, because the
    countries of the aggregate are distinct, so that [values[0]] exists.
    The chart has one trace per country of the filtered subset, in
    ascending order of the names; each trace has eight radial values, the
    seven means of the country and the first of them again, against the
    seven categories and the first again. *)
Theorem radar_traces_are_closed
    (df : list Product) (cs gs : list string) (lo hi : Z) (rest : list Z) :
  exact_double lo → exact_double hi →
  let filtered :=
    boolean_index (λ p : Product, MacronutrientChart.mask cs gs lo hi p) df in
  ∃ traces,
    (RadarChart.update_nutrition_radar_chart cs gs (lo :: hi :: rest) df).1
    = Ok traces
    ∧ StronglySorted klt (RadarChart.name <$> traces)
    ∧ (∀ c, c ∈ RadarChart.name <$> traces ↔
            ∃ p : Product, p ∈ filtered ∧ country_name p = c)
    ∧ ∀ t, t ∈ traces →
        length (RadarChart.r t) = 8%nat
        ∧ RadarChart.theta t = RadarChart.categories ++ [RadarChart.Fat]
        ∧ RadarChart.r t !! 7%nat = RadarChart.r t !! 0%nat
        ∧ ∀ i c, RadarChart.categories !! i = Some c →
            RadarChart.r t !! i
            = Some (mean (RadarChart.column c
                            <$> filter (λ p : Product,
                                          country_name p = RadarChart.name t)
                                       filtered)).
Proof.
  intros _ _. cbn zeta.
  set (filtered := boolean_index
                     (λ p : Product, MacronutrientChart.mask cs gs lo hi p) df).
  exists (closed_trace <$> RadarChart.radar_data filtered).
  assert (Hnames : RadarChart.name <$> (closed_trace <$> RadarChart.radar_data filtered)
                   = group_keys (λ p : Product, Some (country_name p)) filtered).
  { rewrite <- list_fmap_compose. apply radar_data_countries. }
  split; [|split; [|split]].
  - cbn [fst RadarChart.update_nutrition_radar_chart RadarChart.filtered_df
         getitem lookup list_lookup bind].
    apply radar_traces.
  - rewrite Hnames. apply group_keys_ascending.
  - intros c. rewrite Hnames, elem_of_group_keys. split.
    + intros (p & Hp & [= <-]). eauto.
    + intros (p & Hp & <-). eauto.
  - intros t (row & -> & Hrow)%list_elem_of_fmap.
    unfold RadarChart.radar_data, groupby in Hrow.
    rewrite <- list_fmap_compose in Hrow.
    apply list_elem_of_fmap in Hrow as (k & -> & Hk).
    cbn [closed_trace RadarChart.r RadarChart.theta RadarChart.name
         RadarChart.Country RadarChart.value compose fst snd].
    split; [reflexivity|]. split; [reflexivity|]. split; [reflexivity|].
    intros i c Hi.
    assert (Hgroup : get_group (λ p : Product, Some (country_name p)) filtered k
                     = filter (λ p : Product, country_name p = k) filtered).
    { unfold get_group. apply list_filter_iff. intros p. split; congruence. }
    rewrite <- Hgroup.
    repeat (destruct i as [|i]; [injection Hi as <-; reflexivity|]).
    discriminate Hi.
Qed.

Lemma radar_traces_are_closed_witness :
  let filtered :=
    boolean_index
      (λ p : Product,
         MacronutrientChart.mask ["us"; "fr"]%string ["A"; "B"]%string 1 4 p)
      sample_products in
  ∃ traces,
    (RadarChart.update_nutrition_radar_chart
       ["us"; "fr"]%string ["A"; "B"]%string [1; 4] sample_products).1
    = Ok traces
    ∧ StronglySorted klt (RadarChart.name <$> traces)
    ∧ (∀ c, c ∈ RadarChart.name <$> traces ↔
            ∃ p : Product, p ∈ filtered ∧ country_name p = c)
    ∧ ∀ t, t ∈ traces →
        length (RadarChart.r t) = 8%nat
        ∧ RadarChart.theta t = RadarChart.categories ++ [RadarChart.Fat]
        ∧ RadarChart.r t !! 7%nat = RadarChart.r t !! 0%nat
        ∧ ∀ i c, RadarChart.categories !! i = Some c →
            RadarChart.r t !! i
            = Some (mean (RadarChart.column c
                            <$> filter (λ p : Product,
                                          country_name p = RadarChart.name t)
                                       filtered)).
Proof.
  apply (radar_traces_are_closed sample_products
           ["us"; "fr"]%string ["A"; "B"]%string 1 4 []);
    unfold exact_double; lia.
Defined.


(** ** The additives against nutrition chart *)

Lemma has_true (columns : list string) (column : string) :
  AdditivesVsNutritionChart.has columns column = true ↔ column ∈ columns.
Proof. unfold AdditivesVsNutritionChart.has. apply bool_decide_eq_true. Qed.

Lemma isna_false {A} (x : option A) :
  negb (AdditivesVsNutritionChart.isna x) = true ↔ is_Some x.
Proof.
  destruct x; simpl; split; eauto; try discriminate. intros [? [=]].
Qed.



Lemma additives_filtered_present (df : Frame) (cs : list string)
    (nova_range : list Z) (filtered : list Product) :
  AdditivesVsNutritionChart.filtered_df df cs nova_range = Ok (Some filtered) →
  ∀ p : Product, p ∈ filtered →
    is_Some (additives_n p) ∧ is_Some (nutrition_score p).
Proof.
  unfold AdditivesVsNutritionChart.filtered_df.
  intros (step2 & _ & Hstep3)%bind_Ok.
  destruct (AdditivesVsNutritionChart.has (frame_columns df) "additives_n"
            && AdditivesVsNutritionChart.has (frame_columns df)
                 "nutrition_score"); [|discriminate].
  injection Hstep3 as <-. intros p [_ Hp]%elem_of_boolean_index.
  apply andb_true_iff in Hp. now rewrite !isna_false in Hp.
Qed.

(** X7. Given the subset the three filtering steps return, the callback
    answers with the placeholder "No data available with current filters"
    exactly when the subset is empty; otherwise it plots one point per row
    of the subset, in order, and no point has a missing coordinate. *)
Theorem additives_figure_outcome
    (df : Frame) (cs : list string) (nova_range : list Z)
    (filtered : list Product) :
  AdditivesVsNutritionChart.filtered_df df cs nova_range = Ok (Some filtered) →
  let figure :=
    (AdditivesVsNutritionChart.update_additives_vs_nutrition_chart
       cs nova_range df).1 in
  (filtered = [] ↔
   figure = Ok (AdditivesVsNutritionChart.Placeholder
                  "No data available with current filters"))
  ∧ (filtered ≠ [] →
     ∃ s, figure = Ok (AdditivesVsNutritionChart.Plot s)
       ∧ AdditivesVsNutritionChart.x s = additives_n <$> filtered
       ∧ AdditivesVsNutritionChart.y s = nutrition_score <$> filtered
       ∧ (∀ v, v ∈ AdditivesVsNutritionChart.x s
                     ++ AdditivesVsNutritionChart.y s → is_Some v)).
Proof.
  intros Hfiltered. cbn zeta.
  cbn [fst AdditivesVsNutritionChart.update_additives_vs_nutrition_chart].
  rewrite Hfiltered. cbn [bind]. split.
  - destruct filtered; split; congruence.
  - intros Hne. destruct filtered as [|p filtered]; [congruence|].
    eexists. split; [reflexivity|]. split; [reflexivity|].
    split; [reflexivity|].
    cbn [AdditivesVsNutritionChart.scatter AdditivesVsNutritionChart.x
         AdditivesVsNutritionChart.y].
    intros v [Hv|Hv]%elem_of_app;
      apply list_elem_of_fmap in Hv as (q & -> & Hq);
      now apply (additives_filtered_present df cs nova_range _ Hfiltered q).
Qed.

Lemma additives_figure_outcome_witness :
  let filtered :=
    filter (λ p : Product, is_Some (nutrition_score p)) sample_products in
  let figure :=
    (AdditivesVsNutritionChart.update_additives_vs_nutrition_chart
       ["us"; "fr"; "xx"]%string [1; 4] sample_frame).1 in
  (filtered = [] ↔
   figure = Ok (AdditivesVsNutritionChart.Placeholder
                  "No data available with current filters"))
  ∧ (filtered ≠ [] →
     ∃ s, figure = Ok (AdditivesVsNutritionChart.Plot s)
       ∧ AdditivesVsNutritionChart.x s = additives_n <$> filtered
       ∧ AdditivesVsNutritionChart.y s = nutrition_score <$> filtered
       ∧ (∀ v, v ∈ AdditivesVsNutritionChart.x s
                     ++ AdditivesVsNutritionChart.y s → is_Some v)).
Proof.
  exact (additives_figure_outcome sample_frame ["us"; "fr"; "xx"]%string
           [1; 4]
           (filter (λ p : Product, is_Some (nutrition_score p))
              sample_products) eq_refl).
Defined.



Lemma forallb_isna {A} (xs : list (option A)) :
  forallb AdditivesVsNutritionChart.isna xs = true ↔ ∀ x, x ∈ xs → x = None.
Proof.
  rewrite forallb_forall. split.
  - intros Hall x Hx%list_elem_of_In. specialize (Hall x Hx).
    destruct x; [discriminate | reflexivity].
  - intros Hall x Hx%list_elem_of_In. now rewrite (Hall x Hx).
Qed.

Lemma median_is_Some (xs : list (option Q)) :
  omap id xs ≠ [] → is_Some (median xs).
Proof.
  intros Hne. unfold median.
  set (sorted := merge_sort Qleb (omap id xs)).
  assert (Hlen : length sorted ≠ 0%nat).
  { unfold sorted. rewrite merge_sort_Permutation.
    destruct (omap id xs); [congruence | discriminate]. }
  rewrite decide_False by assumption.
  assert (Hhalf : (length sorted / 2 < length sorted)%nat)
    by (apply Nat.div_lt; lia).
  destruct (Nat.odd (length sorted)).
  - now apply lookup_lt_is_Some.
  - destruct (lookup_lt_is_Some_2 sorted (length sorted / 2 - 1)) as [a ->];
      [lia|].
    destruct (lookup_lt_is_Some_2 sorted (length sorted / 2)) as [b ->];
      [lia|].
    simpl. eauto.
Qed.

(** X9. The size column of the scatter plot has no gap: when it is used,
    it is the ingredient counts of the plotted rows with every missing one
    replaced by their median, which exists (the fallback value 1.0 is never
    needed).  It is not used exactly when the frame has no such column or
    no plotted row has a count. *)
Theorem size_column_filled (columns : list string) (filtered : list Product) :
  (AdditivesVsNutritionChart.size_column columns filtered = None ↔
   "ingredients_count"%string ∉ columns
   ∨ ∀ p : Product, p ∈ filtered → ingredients_count p = None)
  ∧ ∀ sizes,
      AdditivesVsNutritionChart.size_column columns filtered = Some sizes →
      ∃ m, median (ingredients_count <$> filtered) = Some m
        ∧ sizes = (λ p : Product, Some (default m (ingredients_count p)))
                  <$> filtered.
Proof.
  unfold AdditivesVsNutritionChart.size_column.
  destruct (AdditivesVsNutritionChart.has columns "ingredients_count")
    eqn:Hcol.
  - apply has_true in Hcol.
    destruct (forallb AdditivesVsNutritionChart.isna
                (ingredients_count <$> filtered)) eqn:Hall.
    + split; [|discriminate]. split; [|reflexivity]. intros _. right.
      intros p Hp. apply (proj1 (forallb_isna _) Hall).
      now apply list_elem_of_fmap_2.
    + assert (Hsome : omap id (ingredients_count <$> filtered) ≠ []).
      { intros Hnil. rewrite omap_id_nil, <- forallb_isna in Hnil.
        congruence. }
      destruct (median_is_Some _ Hsome) as [m Hm]. split.
      * split; [discriminate|]. intros [Hno|Hnone]; [contradiction|].
        exfalso. apply Hsome. apply omap_id_nil.
        intros x (p & -> & Hp)%list_elem_of_fmap. auto.
      * intros sizes [= <-]. exists m. split; [assumption|].
        rewrite Hm. unfold series_fillna. now rewrite <- list_fmap_compose.
  - split; [|discriminate]. split; [|reflexivity]. intros _. left.
    rewrite <- has_true. congruence.
Qed.

Lemma size_column_filled_witness :
  ∃ m, median (ingredients_count <$> sample_products) = Some m
    ∧ [Some 3%Q; Some 5%Q; Some 9%Q; Some 5%Q]
      = (λ p : Product, Some (default m (ingredients_count p)))
        <$> sample_products.
Proof.
  apply (proj2 (size_column_filled (frame_columns sample_frame)
                  sample_products)).
  reflexivity.
Defined.

Lemma Qmax_list_spec (xs : list (option Q)) :
  omap id xs ≠ [] →
  ∃ m, Qmax_list xs = Some m ∧ Some m ∈ xs
       ∧ ∀ v, Some v ∈ xs → (v <= m)%Q.
Proof.
  assert (Hin : ∀ v, Some v ∈ xs ↔ v ∈ omap id xs).
  { intros v. rewrite list_elem_of_omap. split.
    - intros Hv. exists (Some v). auto.
    - intros (x & Hx & Heq). simpl in Heq. now subst. }
  unfold Qmax_list. setoid_rewrite Hin. clear Hin.
  induction (omap id xs) as [|y ys IH]; intros Hne; [congruence|].
  cbn [foldr]. destruct ys as [|y' ys].
  - exists y. split; [reflexivity|]. split; [left|].
    intros v [->|Hv]%elem_of_cons; [apply Qle_refl|].
    now apply elem_of_nil in Hv.
  - destruct IH as (m & -> & Hm & Hmax); [discriminate|].
    destruct (Qle_bool m y) eqn:Hle.
    + apply Qle_bool_iff in Hle. exists y.
      split; [reflexivity|]. split; [left|].
      intros v [->|Hv]%elem_of_cons; [apply Qle_refl|].
      apply Qle_trans with m; auto.
    + exists m. split; [reflexivity|]. split; [now right|].
      intros v [->|Hv]%elem_of_cons; [|auto].
      apply Qlt_le_weak, Qnot_le_lt. intros Hle'.
      apply Qle_bool_iff in Hle'. congruence.
Qed.

(** X10. The five grade lines of the scatter plot all run to the largest
    additives count among the plotted points: their common end is the
    count of one of the points and no point lies beyond it. *)
Theorem grade_lines_span_points
    (df : Frame) (cs : list string) (nova_range : list Z)
    (s : AdditivesVsNutritionChart.Scatter) :
  (AdditivesVsNutritionChart.update_additives_vs_nutrition_chart
     cs nova_range df).1 = Ok (AdditivesVsNutritionChart.Plot s) →
  ∃ m,
    AdditivesVsNutritionChart.lines s
    = [(5, Some m); (4, Some m); (3, Some m); (2, Some m); (1, Some m)]
    ∧ Some m ∈ AdditivesVsNutritionChart.x s
    ∧ ∀ v, Some v ∈ AdditivesVsNutritionChart.x s → (v <= m)%Q.
Proof.
  cbn [fst AdditivesVsNutritionChart.update_additives_vs_nutrition_chart].
  destruct (AdditivesVsNutritionChart.filtered_df df cs nova_range)
    as [[[|p filtered]|]|e] eqn:Hfiltered; cbn [bind]; try discriminate.
  intros [= <-].
  cbn [AdditivesVsNutritionChart.scatter AdditivesVsNutritionChart.lines
       AdditivesVsNutritionChart.x].
  destruct (Qmax_list_spec (additives_n <$> p :: filtered))
    as (m & Hm & Hin & Hmax).
  - destruct (additives_filtered_present df cs nova_range _ Hfiltered p)
      as [[a Ha] _]; [left|].
    rewrite fmap_cons, Ha. discriminate.
  - exists m. rewrite Hm. auto.
Qed.

Lemma grade_lines_span_points_witness :
  ∃ m,
    AdditivesVsNutritionChart.lines
      (AdditivesVsNutritionChart.scatter (frame_columns sample_frame)
         (filter (λ p : Product, is_Some (nutrition_score p)) sample_products))
    = [(5, Some m); (4, Some m); (3, Some m); (2, Some m); (1, Some m)]
    ∧ Some m ∈ AdditivesVsNutritionChart.x
                 (AdditivesVsNutritionChart.scatter (frame_columns sample_frame)
                    (filter (λ p : Product, is_Some (nutrition_score p))
                       sample_products))
    ∧ ∀ v, Some v ∈ AdditivesVsNutritionChart.x
                      (AdditivesVsNutritionChart.scatter
                         (frame_columns sample_frame)
                         (filter (λ p : Product, is_Some (nutrition_score p))
                            sample_products)) → (v <= m)%Q.
Proof.
  apply (grade_lines_span_points sample_frame ["us"; "fr"; "xx"]%string [1; 4]).
  reflexivity.
Defined.


(** ** The two country tables and the GDP chart *)

Lemma country_tables_same_keys (code : string) :
  is_Some (gdp_per_capita !! code) ↔ is_Some (country_map !! code).
Proof.
  rewrite <- !elem_of_dom.
  assert (Hdom : dom gdp_per_capita = dom country_map) by (vm_compute; reflexivity).
  now rewrite Hdom.
Qed.

Ltac table_entry H :=
  repeat (apply elem_of_cons in H as [H|H]; [simplify_eq|]);
  try (now apply elem_of_nil in H).

Lemma country_map_inj (code1 code2 name : string) :
  country_map !! code1 = Some name → country_map !! code2 = Some name →
  code1 = code2.
Proof.
  unfold country_map. intros H1%elem_of_list_to_map_2 H2%elem_of_list_to_map_2.
  table_entry H1; table_entry H2; reflexivity.
Qed.

Lemma country_map_not_upper (code name : string) :
  country_map !! code = Some name → name ≠ upper code.
Proof.
  unfold country_map. intros H%elem_of_list_to_map_2.
  table_entry H; vm_compute; discriminate.
Qed.

(** X11. The two tables of the module have the same country codes, so a
    product has a GDP value exactly when its display name comes from the
    table of names; and since no name of the table is an upper-cased code,
    a product lacks a GDP value exactly when its display name is the
    upper-cased fallback. *)
Theorem gdp_missing_iff_fallback_name (r : Row) :
  (is_Some (gdp_of r) ↔ is_Some (country_map !! country_code r))
  ∧ (gdp_of r = None ↔ country_name r = upper (country_code r)).
Proof.
  unfold gdp_of, country_name, clean_country_name, dict_get.
  pose proof (country_tables_same_keys (country_code r)) as Hkeys.
  split; [exact Hkeys|].
  destruct (country_map !! country_code r) as [name|] eqn:Hname.
  - split.
    + intros Hnone. destruct (proj2 Hkeys) as [g Hg]; [eauto | congruence].
    + intros Heq. now apply country_map_not_upper in Hname.
  - split; [reflexivity|]. intros _.
    destruct (gdp_per_capita !! country_code r) eqn:Hg; [|reflexivity].
    destruct (proj1 Hkeys) as [? [=]]. eauto.
Qed.

Lemma StronglySorted_fst_dependent {A B} `{EqDecision A} `{KeyOrd A}
    `{KeyOrd B} (l : list (A * B)) :
  (∀ k1 k2, k1 ∈ l → k2 ∈ l → k1.1 = k2.1 → k1.2 = k2.2) →
  StronglySorted klt l → StronglySorted klt l.*1.
Proof.
  intros Hdep Hsorted. induction Hsorted as [|[a b] l Hs IH Hall].
  - constructor.
  - rewrite fmap_cons. constructor.
    + apply IH. intros k1 k2 H1 H2. apply Hdep; now right.
    + rewrite Forall_fmap. rewrite Forall_forall in Hall |- *.
      intros [a' b'] Hin. specialize (Hall _ Hin). cbn [fst compose].
      apply klt_pair in Hall as [Hlt | [-> Hlt]]; [assumption|].
      exfalso. destruct Hlt as [_ Hne]. apply Hne.
      apply (Hdep (a', b) (a', b')); [left | now right | reflexivity].
Qed.

Lemma gdp_key_Some (p : Product) (c : string) (g : Z) :
  GdpChart.gdp_key p = Some (c, g) ↔ country_name p = c ∧ gdp_of p = Some g.
Proof.
  unfold GdpChart.gdp_key. destruct (gdp_of p) as [g'|]; simpl.
  - split; [intros [= <- <-] | intros [<- [= <-]]]; auto.
  - split; [discriminate | intros [_ [=]]].
Qed.

Lemma gdp_determined_by_name (p1 p2 : Product) (g1 g2 : Z) :
  country_name p1 = country_name p2 →
  gdp_of p1 = Some g1 → gdp_of p2 = Some g2 → g1 = g2.
Proof.
  intros Hname H1 H2.
  destruct (proj1 (country_tables_same_keys (country_code p1))) as [n1 Hn1];
    [unfold gdp_of in H1; eauto|].
  destruct (proj1 (country_tables_same_keys (country_code p2))) as [n2 Hn2];
    [unfold gdp_of in H2; eauto|].
  unfold country_name, clean_country_name, dict_get in Hname.
  rewrite Hn1, Hn2 in Hname. subst n2.
  assert (Hcode : country_code p1 = country_code p2)
    by (eapply country_map_inj; eassumption).
  unfold gdp_of in H1, H2. rewrite Hcode in H1. congruence.
Qed.

(** X12. The GDP chart has one bubble, and one label, per country although
    it groups by country name and GDP value together: a country name goes
    with one GDP value only.  The countries come in ascending order of
    their names, each is a name of the table, never an upper-cased code,
    and its GDP value is that of the table. *)
Theorem gdp_chart_one_row_per_country (filtered : list Product) :
  let data := GdpChart.gdp_data filtered in
  StronglySorted klt (GdpChart.country <$> data)
  ∧ (∀ c, c ∈ GdpChart.country <$> data ↔
          ∃ p : Product, p ∈ filtered ∧ is_Some (gdp_of p)
                         ∧ country_name p = c)
  ∧ (∀ row, row ∈ data →
       ∃ code, country_map !! code = Some (GdpChart.country row)
               ∧ gdp_per_capita !! code = Some (GdpChart.gdp row))
  ∧ (λ l : Z * option Q * string, l.2) <$> GdpChart.labels data
    = GdpChart.country <$> data.
Proof.
  cbn zeta.
  assert (Hkeys : (λ row, (GdpChart.country row, GdpChart.gdp row))
                    <$> GdpChart.gdp_data filtered
                  = group_keys GdpChart.gdp_key filtered).
  { unfold GdpChart.gdp_data. rewrite <- list_fmap_compose.
    rewrite <- (groupby_keys GdpChart.gdp_key filtered).
    apply fmap_ext_elem_of. intros [[c g] rows] _. reflexivity. }
  assert (Hnames : GdpChart.country <$> GdpChart.gdp_data filtered
                   = (group_keys GdpChart.gdp_key filtered).*1).
  { rewrite <- Hkeys, <- list_fmap_compose. reflexivity. }
  split; [|split; [|split]].
  - rewrite Hnames. apply StronglySorted_fst_dependent.
    + intros [c1 g1] [c2 g2].
      intros (p1 & _ & [Hc1 Hg1]%gdp_key_Some)%elem_of_group_keys.
      intros (p2 & _ & [Hc2 Hg2]%gdp_key_Some)%elem_of_group_keys.
      cbn [fst snd]. intros <-.
      apply (gdp_determined_by_name p1 p2); congruence.
    + apply group_keys_ascending.
  - intros c. rewrite Hnames, list_elem_of_fmap. split.
    + intros ([c' g] & -> & (p & Hp & [Hc Hg]%gdp_key_Some)%elem_of_group_keys).
      exists p. rewrite Hg. eauto.
    + intros (p & Hp & [g Hg] & <-). exists (country_name p, g).
      split; [reflexivity|]. apply elem_of_group_keys. exists p.
      split; [assumption|]. now apply gdp_key_Some.
  - intros row Hrow.
    assert (Hkey : (GdpChart.country row, GdpChart.gdp row)
                   ∈ group_keys GdpChart.gdp_key filtered).
    { rewrite <- Hkeys.
      apply (list_elem_of_fmap_2
               (λ row, (GdpChart.country row, GdpChart.gdp row))), Hrow. }
    apply elem_of_group_keys in Hkey as (p & _ & [Hc Hg]%gdp_key_Some).
    exists (country_code p). split; [|exact Hg].
    destruct (proj1 (country_tables_same_keys (country_code p))) as [n Hn];
      [unfold gdp_of in Hg; eauto|].
    rewrite <- Hc. unfold country_name, clean_country_name, dict_get.
    now rewrite Hn.
  - unfold GdpChart.labels. now rewrite <- list_fmap_compose.
Qed.


(** ** The default selections of the layout *)

Section InsertionOrder.
Context {K : Type} `{EqDecision K}.

Lemma elem_of_insertion_order (l : list K) (k : K) :
  k ∈ insertion_order l ↔ k ∈ l.
Proof.
  induction l as [|k' l IH]; [reflexivity|].
  cbn [insertion_order]. rewrite !elem_of_cons, list_elem_of_filter, IH.
  destruct (decide (k = k')); tauto.
Qed.

Lemma NoDup_insertion_order (l : list K) : NoDup (insertion_order l).
Proof.
  induction l as [|k l IH]; [constructor|].
  cbn [insertion_order]. apply NoDup_cons. split.
  - rewrite list_elem_of_filter. tauto.
  - now apply NoDup_filter.
Qed.

Lemma insertion_order_snoc (l : list K) (k : K) :
  insertion_order (l ++ [k])
  = if decide (k ∈ l) then insertion_order l else insertion_order l ++ [k].
Proof.
  induction l as [|a l IH].
  - rewrite decide_False by apply not_elem_of_nil. reflexivity.
  - cbn [app insertion_order]. rewrite IH.
    destruct (decide (k ∈ l)) as [Hin|Hnin].
    + rewrite decide_True by now right. reflexivity.
    + rewrite filter_app. destruct (decide (k = a)) as [->|Hne].
      * rewrite decide_True by left.
        rewrite filter_cons_False by (intros Hne; now apply Hne).
        rewrite filter_nil. now rewrite app_nil_r.
      * rewrite decide_False by (rewrite elem_of_cons; tauto).
        rewrite filter_cons_True by assumption. reflexivity.
Qed.

(** A key of the result is preceded by exactly the keys that occur before
    its first occurrence in the list. *)
Lemma insertion_order_first (l l1 l2 : list K) (c : K) :
  insertion_order l = l1 ++ c :: l2 →
  ∃ d1 d2, l = d1 ++ c :: d2 ∧ (c ∉ d1) ∧ (∀ x, x ∈ l1 ↔ x ∈ d1).
Proof.
  revert l1 l2 c. induction l as [|k l IH] using rev_ind; intros l1 l2 c Heq.
  - destruct l1; discriminate.
  - rewrite insertion_order_snoc in Heq.
    assert (Hold : insertion_order l = l1 ++ c :: l2 →
                   ∃ d1 d2, l ++ [k] = d1 ++ c :: d2 ∧ (c ∉ d1)
                            ∧ (∀ x, x ∈ l1 ↔ x ∈ d1)).
    { intros (d1 & d2 & -> & Hc & Hx)%IH. exists d1, (d2 ++ [k]).
      now rewrite <- app_assoc. }
    destruct (decide (k ∈ l)) as [Hin|Hnin]; [now apply Hold|].
    destruct l2 as [|y l2 _] using rev_ind.
    + apply app_inj_tail in Heq as [<- ->]. exists l, [].
      split; [reflexivity|]. split; [assumption|].
      intros x. apply elem_of_insertion_order.
    + change (l1 ++ c :: l2 ++ [y]) with (l1 ++ (c :: l2) ++ [y]) in Heq.
      rewrite app_assoc in Heq. apply app_inj_tail in Heq as [Heq _].
      apply IH in Heq as (d1 & d2 & -> & Hc & Hx). exists d1, (d2 ++ [k]).
      now rewrite <- app_assoc.
Qed.

End InsertionOrder.

(** X13. The options of the country dropdown are the distinct country
    codes of the dataset in order of first appearance: each code of the
    dataset is listed once, and it is preceded by exactly the codes that
    occur in the dataset before its first row.  The default selection is
    made of the first five options, or of all of them when there are fewer:
    in that case every row passes the country facet. *)
Theorem default_countries_first_five (df : DataFrame) :
  NoDup (country_options df)
  ∧ (∀ c, c ∈ country_options df ↔ c ∈ country_code <$> df)
  ∧ (∀ before c after, country_options df = before ++ c :: after →
       ∃ rows1 rows2,
         country_code <$> df = rows1 ++ c :: rows2
         ∧ (c ∉ rows1)
         ∧ (∀ x, x ∈ before ↔ x ∈ rows1))
  ∧ default_countries df `prefix_of` country_options df
  ∧ length (default_countries df)
    = (5 `min` length (country_options df))%nat
  ∧ ((length (country_options df) ≤ 5)%nat →
     default_countries df = country_options df
     ∧ ∀ r, r ∈ df →
         isin (Some (country_code r)) (default_countries df) = true).
Proof.
  unfold default_countries, country_options.
  split; [|split; [|split; [|split; [|split]]]].
  - apply NoDup_insertion_order.
  - intros c. apply elem_of_insertion_order.
  - intros before c after. apply insertion_order_first.
  - apply prefix_take.
  - apply length_take.
  - intros Hlen. rewrite take_ge by assumption. split; [reflexivity|].
    intros r Hr. apply isin_true. exists (country_code r).
    split; [reflexivity|].
    apply elem_of_insertion_order. now apply list_elem_of_fmap_2.
Qed.

Lemma default_countries_first_five_witness :
  isin (Some (country_code (mk_row "fr" "A" 1 None)))
       (default_countries scenario_df) = true.
Proof.
  apply (proj2 (proj2 (proj2 (proj2 (proj2
           (default_countries_first_five scenario_df)))))).
  - vm_compute. lia.
  - right. right. left.
Defined.

Lemma elem_of_grade_options (df : DataFrame) (g : string) :
  g ∈ grade_options df ↔ ∃ r, r ∈ df ∧ nutrition_grade r = Some g.
Proof.
  unfold grade_options.
  rewrite merge_sort_Permutation, elem_of_insertion_order, list_elem_of_omap.
  reflexivity.
Qed.

(** X14. The default grade selection lists every grade of the dataset once,
    in ascending order.  With it and the default NOVA range [1, 4], the
    macronutrient chart still leaves out the rows that have no grade or no
    NOVA group: the filtered subset is made of the rows of the selected
    countries that have a grade and a NOVA group from 1 to 4. *)
Theorem default_grades_keep_graded_rows (df : DataFrame) (cs : list string) :
  StronglySorted klt (grade_options df)
  ∧ (∀ g, g ∈ grade_options df ↔ ∃ r, r ∈ df ∧ nutrition_grade r = Some g)
  ∧ ∃ sub,
      MacronutrientChart.filtered_df df cs (grade_options df) [1; 4] = Ok sub
      ∧ ∀ r, r ∈ sub ↔
          r ∈ df
          ∧ country_code r ∈ cs
          ∧ is_Some (nutrition_grade r)
          ∧ (∃ n, nova_group r = Some n ∧ 1 ≤ n ≤ 4).
Proof.
  split; [|split].
  - unfold grade_options. apply StronglySorted_strict.
    + apply StronglySorted_merge_sort; apply _.
    + rewrite merge_sort_Permutation. apply NoDup_insertion_order.
  - apply elem_of_grade_options.
  - eexists. split; [reflexivity|]. intros r.
    rewrite elem_of_boolean_index, macronutrient_mask_true. split.
    + intros (Hr & Hc & (g & Hg & _) & Hn). rewrite Hg. eauto.
    + intros (Hr & Hc & [g Hg] & Hn). split; [assumption|].
      split; [assumption|]. split; [|assumption].
      exists g. split; [assumption|]. apply elem_of_grade_options. eauto.
Qed.


(** ** Colours in hexadecimal *)

Lemma hex_digit_char (c : Ascii.ascii) (d : Z) :
  HexColor.hex_digit c = Some d →
  0 ≤ d < 16
  ∧ HexColor.is_space c = false
  ∧ c ≠ "+"%char ∧ c ≠ "-"%char ∧ c ≠ "_"%char
  ∧ c ≠ "x"%char ∧ c ≠ "X"%char.
Proof.
  destruct c as [[] [] [] [] [] [] [] []]; vm_compute;
    intros [= <-]; repeat split; congruence.
Qed.

Lemma scan_hex_digits (s : list Ascii.ascii) (acc : Z) (seen : option bool) :
  Forall (λ c, is_Some (HexColor.hex_digit c)) s →
  s ≠ [] ∨ seen = Some true →
  HexColor.scan_digits acc seen s
  = Some (foldl (λ acc c, acc * 16 + default 0 (HexColor.hex_digit c)) acc s,
          []).
Proof.
  intros Hall. revert acc seen.
  induction Hall as [|c s [d Hd] Hall IH]; intros acc seen Hstart.
  - destruct Hstart as [?| ->]; [congruence | reflexivity].
  - destruct (hex_digit_char c d Hd) as (_ & _ & _ & _ & Hus & _).
    cbn [HexColor.scan_digits foldl]. rewrite decide_False by assumption.
    rewrite Hd. cbn [default id]. apply IH. now right.
Qed.

Lemma int16_hex_digits (s : list Ascii.ascii) :
  Forall (λ c, is_Some (HexColor.hex_digit c)) s → s ≠ [] →
  HexColor.int16 s = Some (hex_value s).
Proof.
  intros Hall Hne. destruct s as [|c s]; [congruence|].
  pose proof (Forall_inv Hall) as [d Hd].
  destruct (hex_digit_char c d Hd) as (_ & Hsp & Hplus & Hminus & _ & _ & _).
  unfold HexColor.int16. cbn [HexColor.skip_spaces]. rewrite Hsp.
  assert (Hsign : match c :: s with
                  | "+"%char :: s' => (1, s')
                  | "-"%char :: s' => (-1, s')
                  | _ => (1, c :: s)
                  end = (1, c :: s)).
  { destruct c as [[] [] [] [] [] [] [] []]; congruence. }
  rewrite Hsign.
  assert (Hprefix : match c :: s with
                    | "0"%char :: x :: s' =>
                        if decide (x = "x"%char ∨ x = "X"%char)
                        then (true, s') else (false, c :: s)
                    | _ => (false, c :: s)
                    end = (false, c :: s)).
  { destruct s as [|x s'].
    - destruct c as [[] [] [] [] [] [] [] []]; reflexivity.
    - pose proof (Forall_inv (Forall_inv_tail Hall)) as [dx Hdx].
      destruct (hex_digit_char x dx Hdx) as (_ & _ & _ & _ & _ & Hx & HX).
      rewrite decide_False by tauto.
      destruct c as [[] [] [] [] [] [] [] []]; reflexivity. }
  rewrite Hprefix.
  rewrite (scan_hex_digits (c :: s) 0 None Hall) by (left; discriminate).
  cbn [mbind option_bind HexColor.skip_spaces]. unfold hex_value.
  now rewrite Z.mul_1_l.
Qed.

Lemma hex_value_bounds (s : list Ascii.ascii) :
  Forall (λ c, is_Some (HexColor.hex_digit c)) s →
  0 ≤ hex_value s < 16 ^ Z.of_nat (length s).
Proof.
  unfold hex_value. intros Hall.
  assert (Hgen : ∀ acc, 0 ≤ acc →
    0 ≤ foldl (λ acc c, acc * 16 + default 0 (HexColor.hex_digit c)) acc s
      < (acc + 1) * 16 ^ Z.of_nat (length s)).
  { induction Hall as [|c s [d Hd] Hall IH]; intros acc Hacc.
    - simpl. lia.
    - destruct (hex_digit_char c d Hd) as (Hdigit & _).
      cbn [foldl length]. rewrite Hd. cbn [default id].
      destruct (IH (acc * 16 + d)) as [Hlo Hhi]; [lia|].
      split; [assumption|].
      rewrite Nat2Z.inj_succ, Z.pow_succ_r by lia.
      assert (Hpow : 0 ≤ 16 ^ Z.of_nat (length s))
        by (apply Z.pow_nonneg; lia).
      assert (Hstep : (acc * 16 + d + 1) * 16 ^ Z.of_nat (length s)
                      ≤ (acc + 1) * 16 * 16 ^ Z.of_nat (length s))
        by (apply Z.mul_le_mono_nonneg_r; lia).
      lia. }
  specialize (Hgen 0). lia.
Qed.

Lemma range_step_thirds (k : nat) :
  (0 < k)%nat →
  HexColor.range_step (3 * k) k = Some [0; k; 2 * k]%nat.
Proof.
  intros Hk. unfold HexColor.range_step.
  rewrite !decide_False by lia.
  assert (Hdiv : ((3 * k - 1) / k = 2)%nat).
  { symmetry. apply (Nat.div_unique _ _ _ (k - 1)); lia. }
  rewrite Hdiv. cbn [Nat.add seq fmap list_fmap]. do 4 f_equal; lia.
Qed.

Lemma components_valid (hex_color : string) (k : nat) :
  Forall (λ c, is_Some (HexColor.hex_digit c)) (hex_digits_of hex_color) →
  length (hex_digits_of hex_color) = (3 * k)%nat → (0 < k)%nat →
  HexColor.components hex_color
  = Some (hex_value (take k (hex_digits_of hex_color)),
          hex_value (take k (drop k (hex_digits_of hex_color))),
          hex_value (drop (2 * k) (hex_digits_of hex_color))).
Proof.
  intros Hall Hlen Hk. unfold HexColor.components.
  fold (hex_digits_of hex_color). set (hex := hex_digits_of hex_color) in *.
  rewrite Hlen.
  assert (Hthird : (3 * k / 3 = k)%nat)
    by (rewrite Nat.mul_comm; apply Nat.div_mul; lia).
  rewrite Hthird, range_step_thirds by assumption.
  cbn [mbind option_bind mapM]. unfold HexColor.slice.
  change (drop 0 hex) with hex.
  assert (Hlast : take k (drop (2 * k) hex) = drop (2 * k) hex).
  { apply take_ge. rewrite length_drop. lia. }
  rewrite Hlast.
  rewrite !int16_hex_digits; [reflexivity|..];
    first [ now apply Forall_take
          | now apply Forall_drop
          | now apply Forall_take, Forall_drop
          | intros Hnil; apply (f_equal length) in Hnil;
            rewrite ?length_take, ?length_drop in Hnil; simpl in Hnil; lia ].
Qed.

Lemma format_int_small (n : Z) (k : nat) :
  (k ≤ 3571)%nat → 0 ≤ n < 16 ^ Z.of_nat k →
  HexColor.format_int n = Some (pretty n).
Proof.
  intros Hk [Hlo Hhi]. unfold HexColor.format_int.
  rewrite decide_True; [reflexivity|].
  rewrite Z.abs_eq by assumption.
  apply (Z.lt_le_trans _ _ _ Hhi).
  apply (Z.le_trans _ (16 ^ 3571)).
  - apply Z.pow_le_mono_r; lia.
  - apply Z.lt_le_incl. vm_compute. reflexivity.
Qed.

(** X15. For a colour that, after its leading [#], is made of 3k
    hexadecimal digits, with k from 1 to 3571, [hex_to_rgba] returns the
    text "rgba(r,g,b,alpha)" where r, g and b are the values of the three
    groups of k digits; each lies from 0 to 16^k - 1, so that a
    three-digit colour gives components up to 15, not up to 255.  (The
    bound on k keeps the components within the 4300 decimal digits that
    the f-string prints.) *)
Theorem hex_to_rgba_valid (hex_color alpha : string) (k : nat) :
  Forall (λ c, is_Some (HexColor.hex_digit c)) (hex_digits_of hex_color) →
  length (hex_digits_of hex_color) = (3 * k)%nat →
  (0 < k ≤ 3571)%nat →
  let hex := hex_digits_of hex_color in
  let r := hex_value (take k hex) in
  let g := hex_value (take k (drop k hex)) in
  let b := hex_value (drop (2 * k) hex) in
  HexColor.hex_to_rgba hex_color alpha
  = Some ("rgba(" +:+ pretty r +:+ "," +:+ pretty g +:+ "," +:+ pretty b
          +:+ "," +:+ alpha +:+ ")")
  ∧ 0 ≤ r < 16 ^ Z.of_nat k
  ∧ 0 ≤ g < 16 ^ Z.of_nat k
  ∧ 0 ≤ b < 16 ^ Z.of_nat k.
Proof.
  intros Hall Hlen [Hk Hmax]. cbn zeta.
  assert (Hbound : ∀ s, Forall (λ c, is_Some (HexColor.hex_digit c)) s →
                        length s = k → 0 ≤ hex_value s < 16 ^ Z.of_nat k).
  { intros s Hs <-. now apply hex_value_bounds. }
  assert (Hr : 0 ≤ hex_value (take k (hex_digits_of hex_color))
               < 16 ^ Z.of_nat k).
  { apply Hbound; [now apply Forall_take | rewrite length_take; lia]. }
  assert (Hg : 0 ≤ hex_value (take k (drop k (hex_digits_of hex_color)))
               < 16 ^ Z.of_nat k).
  { apply Hbound; [now apply Forall_take, Forall_drop|].
    rewrite length_take, length_drop. lia. }
  assert (Hb : 0 ≤ hex_value (drop (2 * k) (hex_digits_of hex_color))
               < 16 ^ Z.of_nat k).
  { apply Hbound; [now apply Forall_drop | rewrite length_drop; lia]. }
  split; [|auto]. unfold HexColor.hex_to_rgba.
  rewrite (components_valid hex_color k) by assumption.
  cbn [mbind option_bind].
  rewrite (format_int_small _ k Hmax Hr). cbn [mbind option_bind].
  rewrite (format_int_small _ k Hmax Hg). cbn [mbind option_bind].
  rewrite (format_int_small _ k Hmax Hb). reflexivity.
Qed.

Lemma hex_to_rgba_valid_witness :
  HexColor.hex_to_rgba "#5D6CDF" "0.3" = Some "rgba(93,108,223,0.3)"%string
  ∧ 0 ≤ 93 < 16 ^ Z.of_nat 2
  ∧ 0 ≤ 108 < 16 ^ Z.of_nat 2
  ∧ 0 ≤ 223 < 16 ^ Z.of_nat 2.
Proof.
  apply (hex_to_rgba_valid "#5D6CDF" "0.3" 2).
  - repeat constructor; eexists; reflexivity.
  - reflexivity.
  - lia.
Defined.

(** X16. [hex_to_rgba] raises [ValueError] whenever the colour, after its
    leading [#], has fewer than three characters ([range] gets a zero
    step) or a length that is no multiple of three (the slices are more
    than three), whatever the characters are.  Any number of leading [#]
    is ignored. *)
Theorem hex_to_rgba_bad_length (hex_color alpha : string) :
  ((length (hex_digits_of hex_color) < 3)%nat
   ∨ (length (hex_digits_of hex_color) mod 3 ≠ 0)%nat →
   HexColor.hex_to_rgba hex_color alpha = None)
  ∧ HexColor.hex_to_rgba (String "#" hex_color) alpha
    = HexColor.hex_to_rgba hex_color alpha.
Proof.
  split; [|reflexivity].
  intros Hbad. unfold HexColor.hex_to_rgba, HexColor.components.
  fold (hex_digits_of hex_color).
  set (lv := length (hex_digits_of hex_color)) in *.
  unfold HexColor.range_step.
  destruct (decide (lv / 3 = 0)%nat) as [Hzero|Hstep]; [reflexivity|].
  assert (Hk : (1 ≤ lv / 3)%nat) by lia.
  assert (Hlv : (3 ≤ lv)%nat).
  { destruct (Nat.lt_ge_cases lv 3) as [Hlt|]; [|assumption].
    rewrite Nat.div_small in Hk by assumption. lia. }
  destruct Hbad as [Hshort|Hmod]; [lia|].
  rewrite decide_False by lia.
  pose proof (Nat.div_mod_eq lv 3) as Heq.
  pose proof (Nat.mod_upper_bound lv 3 ltac:(lia)) as Hrem.
  assert (Hcount : (3 ≤ (lv - 1) / (lv / 3))%nat).
  { apply Nat.div_le_lower_bound; lia. }
  cbn [mbind option_bind].
  destruct (mapM _ _) as [values|] eqn:Hvalues; [|reflexivity].
  apply length_mapM in Hvalues.
  rewrite length_fmap, length_seq in Hvalues.
  destruct values as [|? [|? [|? [|? ?]]]]; cbn [length] in Hvalues;
    try lia; reflexivity.
Qed.

Lemma hex_to_rgba_bad_length_witness :
  HexColor.hex_to_rgba "#ffff" "0.5" = None.
Proof.
  apply (proj1 (hex_to_rgba_bad_length "#ffff" "0.5")).
  right. vm_compute. discriminate.
Defined.
